(** * Anonymous voting service: Merkle membership index, nullifier helper
      and the VotingSystem ledger, embedded from the sources.

    - [ZkpServer]     : class [MerkleTree] and the manual fold of
                        [/zkp/generate-proof] in [src/zkp-server.js]
    - [MerkleHelper]  : class [MerkleTreeHelper] (merkle-helper.js, second
                        document of [src/benchmark/k6-vote-simulation-fixed.js])
    - [ZkpHelper]     : class [ZKPHelper] in [src/benchmark/zkp-helper.js]
    - [VotingSystem]  : contract [VotingSystem] in
                        [src/contracts/VotingSystem.sol] *)

From Stdlib Require Import ZArith List Lia Bool Arith String Ascii.
From Stdlib Require Import Strings.Byte.
From stdpp Require Import prelude gmap pretty.

Local Open Scope Z_scope.

(** ** src/zkp-server.js : class MerkleTree

    Field elements and BigInt values are unbounded integers ([Z]).  The
    decimal strings the JavaScript code passes around ([x.toString()],
    [BigInt(s)]) are identified with the integer they denote. *)
Module ZkpServer.

Definition TREE_DEPTH : nat := 20.

(** [{ pathElements, pathIndices }] as returned by [getProof]. *)
Record MerkleProof := mkProof {
  pathElements : list Z;
  pathIndices : list Z
}.

Section WithPoseidon.

(** [poseidon([left, right])] read back through [poseidon.F.toString] and
    [BigInt]: the two-input hash of circomlibjs, an external capability. *)
Variable poseidon : Z → Z → Z.

(** Body of the [while] loop of [buildTree]: the [for (i += 2)] loop that
    fills [next].  [right = level[i + 1] ?? level[i]]. *)
Fixpoint nextLevel (level : list Z) : list Z :=
  match level with
  | [] => []
  | [l] => [poseidon l l]
  | l :: r :: rest => poseidon l r :: nextLevel rest
  end.

(** [tree = [leaves]; while (level.length > 1) { ...; tree.push(next);
    level = next }].  The loop is run with explicit fuel; [None] means the
    fuel ran out before [level.length <= 1]. *)
Fixpoint levelsFrom (fuel : nat) (level : list Z) : option (list (list Z)) :=
  if decide (length level ≤ 1)%nat then Some [level]
  else match fuel with
       | O => None
       | S fuel' => cons level <$> levelsFrom fuel' (nextLevel level)
       end.

Definition buildTree (leaves : list Z) : option (list (list Z)) :=
  levelsFrom (length leaves) leaves.

(** [new MerkleTree(leaves)]: throws "Feuilles invalides" on an empty array
    ([None]), otherwise stores [this.tree = this.buildTree(this.leaves)]. *)
Definition newMerkleTree (leaves : list Z) : option (list (list Z)) :=
  match leaves with
  | [] => None
  | _ => buildTree leaves
  end.

(** [this.tree[this.tree.length - 1][0]] *)
Definition getRoot (tree : list (list Z)) : option Z :=
  last tree ≫= head.

(** The [for (level = 0; level < this.tree.length - 1; level++)] loop of
    [getProof].  [layers] are the layers not yet visited; the last layer is
    never visited.  [None] is the TypeError raised by [sibling.toString()]
    when both [layer[siblingIndex]] and [layer[index]] are undefined. *)
Fixpoint proofLoop (layers : list (list Z)) (index : nat)
  : option (list Z * list Z) :=
  match layers with
  | [] => Some ([], [])
  | layer :: upper =>
    match upper with
    | [] => Some ([], [])
    | _ :: _ =>
      let isRight := (index mod 2)%nat in
      let siblingIndex := if decide (isRight = 0%nat) then (index + 1)%nat
                          else (index - 1)%nat in
      let sibling := match layer !! siblingIndex with
                     | Some s => Some s
                     | None => layer !! index
                     end in
      match sibling with
      | None => None
      | Some s =>
        '(es, bs) ← proofLoop upper (index / 2)%nat;
        Some (s :: es, Z.of_nat isRight :: bs)
      end
    end
  end.

(** [while (pathElements.length < TREE_DEPTH) { pathElements.push("0");
    pathIndices.push(0) }] *)
Definition padProof (es : list Z) (bs : list Z) : MerkleProof :=
  let missing := (TREE_DEPTH - length es)%nat in
  mkProof (es ++ replicate missing 0) (bs ++ replicate missing 0).

Definition getProof (tree : list (list Z)) (index : nat) : option MerkleProof :=
  '(es, bs) ← proofLoop tree index;
  Some (padProof es bs).

(** The manual verification loop of [/zkp/generate-proof]:
    [for (i = 0; i < pathElements.length; i++)], skipping an element whose
    decimal string is "0", otherwise hashing in the order given by
    [pathIndices[i] === 1]. *)
Fixpoint foldPath (currentHash : Z) (elements : list Z) (indices : list Z)
  : Z :=
  match elements with
  | [] => currentHash
  | sibling :: elements' =>
    if decide (sibling = 0) then foldPath currentHash elements' (tail indices)
    else
      let isRight := head indices in
      let l := if decide (isRight = Some 1) then sibling else currentHash in
      let r := if decide (isRight = Some 1) then currentHash else sibling in
      foldPath (poseidon l r) elements' (tail indices)
  end.

(** [rootsMatch = currentHash.toString() === merkleRoot] *)
Definition rootsMatch (leaf : Z) (p : MerkleProof) (root : Z) : bool :=
  bool_decide (foldPath leaf (pathElements p) (pathIndices p) = root).

End WithPoseidon.

End ZkpServer.

(** ** merkle-helper.js : class MerkleTreeHelper
    (second document of src/benchmark/k6-vote-simulation-fixed.js) *)
Module MerkleHelper.

Definition depth : nat := 20.

Section WithPoseidon.

(** [hash(left, right)]: [this.poseidon([BigInt(left), BigInt(right)])]. *)
Variable hash : Z → Z → Z.

(** The pairing loop of [buildTree]:
    [right = i + 1 < currentLevel.length ? currentLevel[i + 1] : '0'];
    [if (right === '0') nextLevel.push(left) else nextLevel.push(hash(left, right))]. *)
Fixpoint pairUp (currentLevel : list Z) : list Z :=
  match currentLevel with
  | [] => []
  | [l] => [l]
  | l :: r :: rest => (if decide (r = 0) then l else hash l r) :: pairUp rest
  end.

(** One iteration of [for (level = 0; level < depth; level++)], with
    [if (nextLevel.length === 0) nextLevel.push('0')]. *)
Definition nextLevel (currentLevel : list Z) : list Z :=
  match pairUp currentLevel with
  | [] => [0]
  | next => next
  end.

Fixpoint levels (n : nat) (level : list Z) : list (list Z) :=
  level :: match n with
           | O => []
           | S n' => levels n' (nextLevel level)
           end.

(** [this.tree] after [buildTree(voterIds)]: levels 0..20. *)
Definition buildTree (leaves : list Z) : list (list Z) := levels depth leaves.

(** [this.tree[depth][0]] *)
Definition root (tree : list (list Z)) : option Z := tree !! depth ≫= head.

(** The loop [for (level = 0; level < 20; level++)] of [getMerklePath]. *)
Fixpoint pathLoop (n : nat) (layers : list (list Z)) (index : nat)
  : option (list Z * list Z) :=
  match n with
  | O => Some ([], [])
  | S n' =>
    match layers with
    | [] => None
    | currentLevel :: upper =>
      let isLeft := bool_decide (index mod 2 = 0)%nat in
      let sibling :=
        if isLeft then default 0 (currentLevel !! (index + 1)%nat)
        else match index with
             | O => 0
             | S i => default 0 (currentLevel !! i)
             end in
      '(es, bs) ← pathLoop n' upper (index / 2)%nat;
      Some (sibling :: es, (if isLeft then 0 else 1) :: bs)
    end
  end.

(** [getMerklePath(leafIndex)]; [None] is the thrown "hors limites" error. *)
Definition getMerklePath (leaves : list Z) (tree : list (list Z)) (leafIndex : nat)
  : option (list Z * list Z) :=
  if decide (length leaves ≤ leafIndex)%nat then None
  else pathLoop 20 tree leafIndex.

End WithPoseidon.

End MerkleHelper.

(** ** src/benchmark/zkp-helper.js : class ZKPHelper *)
Module ZkpHelper.

(** ["0x..."] hex strings are modelled by the bytes they denote. *)
Definition bytes := list byte.

(** [String(index).padStart(10, "0")] *)
Definition padStart10 (s : string) : string :=
  String.concat EmptyString (replicate (10 - String.length s) "0"%string) +:+ s.

Section WithKeccak.

(** [ethers.keccak256]: bytes in, 32 bytes out, an external capability. *)
Variable keccak256 : bytes → bytes.

(** JavaScript numbers are kept abstract, with [String(index)] their
    conversion to a string: the decimal digits of a safe integer, rounded
    digits from [2^53] on and the exponent form from [1e21] on. *)
Context {number : Type}.
Variable numberToString : number → string.

(** [ethers.toUtf8Bytes] on the ASCII strings built below. *)
Definition toUtf8Bytes (s : string) : bytes := list_byte_of_string s.

Definition generateVoterId (index : number) : bytes :=
  keccak256 (toUtf8Bytes ("CNI" +:+ padStart10 (numberToString index))).

Definition generateSecretCode (index : number) : bytes :=
  keccak256 (toUtf8Bytes ("SECRET" +:+ padStart10 (numberToString index))).

(** [ethers.solidityPacked(["bytes32", "bytes32"], [a, b])]: the
    concatenation; throws ([None]) unless each value is exactly 32 bytes. *)
Definition solidityPacked_bytes32_bytes32 (a b : bytes) : option bytes :=
  if decide (length a = 32%nat ∧ length b = 32%nat) then Some (a ++ b) else None.

(** Documented in the source as: a unique nullifier, the hash of
    [voterId] followed by [secretCode]. *)
Definition generateNullifier (voterId secretCode : bytes) : option bytes :=
  keccak256 <$> solidityPacked_bytes32_bytes32 voterId secretCode.

(** The [nullifier] computed at the head of
    [generateVoteProofWithMerklePath(voterIndex, candidateId, merkleRoot,
    merklePath, electionId = 1)] and returned with the proof, by
    [generateMockProof] as it is and otherwise written again as 64
    hexadecimal digits: [electionId] is forwarded to the circuit input
    only. *)
Definition voteProofNullifier (voterIndex : number) (electionId : Z) : option bytes :=
  let voterId := generateVoterId voterIndex in
  let secretCode := generateSecretCode voterIndex in
  generateNullifier voterId secretCode.

End WithKeccak.

End ZkpHelper.

(** ** src/contracts/VotingSystem.sol : contract VotingSystem *)
Module VotingSystem.

(** [uint256] and [bytes32] values are integers in [0, 2^256); [address]
    values are integers.  Solidity 0.8 arithmetic is checked: an overflowing
    [++] aborts the transaction with [Panic(0x11)]. *)
Definition MAX_UINT256 : Z := 2 ^ 256 - 1.

Inductive result (A : Type) : Type :=
| Ok (a : A)
| Revert (reason : string)
| Panic (code : Z).
Arguments Ok {A} a.
Arguments Revert {A} reason.
Arguments Panic {A} code.

#[export] Instance result_ret : MRet result := λ A a, Ok a.
#[export] Instance result_bind : MBind result := λ A B k r,
  match r with
  | Ok a => k a
  | Revert reason => Revert reason
  | Panic code => Panic code
  end.
#[export] Instance result_fmap : FMap result := λ A B f r,
  match r with
  | Ok a => Ok (f a)
  | Revert reason => Revert reason
  | Panic code => Panic code
  end.

Definition require (condition : bool) (reason : string) : result unit :=
  if condition then Ok () else Revert reason.

(** [x++] on a [uint256] *)
Definition checked_incr (x : Z) : result Z :=
  if decide (x < MAX_UINT256) then Ok (x + 1) else Panic 17.

(** The [require] messages of the contract. *)
Definition msg_only_authority : string := "Seule l'autorite electorale est autorisee".
Definition msg_no_election : string := "L'election n'existe pas".
Definition msg_not_active : string := "Election pas active".
Definition msg_not_yet_open : string := "Election non encore ouverte".
Definition msg_ended : string := "Election terminee".
Definition msg_closed : string := "Election cloturee".
Definition msg_start_in_past : string := "L'heure de debut doit etre dans le futur".
Definition msg_end_before_start : string :=
  "L'heure de fin doit etre posterieure a l'heure de debut".
Definition msg_already_active : string := "L'election est deja active".
Definition msg_already_closed : string := "L'election est deja cloturee".
Definition msg_close_not_active : string := "L'election n'est pas active".
Definition msg_token_registered : string := "Le token est deja enregistre".
Definition msg_token_used : string := "Token deja utilise ou invalide".
Definition msg_collision : string := "Collision du hachage du vote".

Module Election.
Record t := mk {
  id : Z;
  title : string;
  startTime : Z;
  endTime : Z;
  isActive : bool;
  isClosed : bool;
  totalVotes : Z;
  candidatesMerkleRoot : Z
}.
(** The value read from a storage slot that was never written. *)
Definition zero : t := mk 0 EmptyString 0 0 false false 0 0.
End Election.

Module EncryptedVote.
Record t := mk {
  voteHash : Z;
  encryptedBallot : list byte;
  anonymousTokenHash : Z;
  timestamp : Z;
  blockNumber : Z
}.
Definition zero : t := mk 0 [] 0 0 0.
End EncryptedVote.

(** Contract storage.  A [mapping] is a finite map read with the zero value
    as default; the nested mappings are keyed by the pair of keys.  The
    [bool]-valued mapping [usedTokens] is the set of slots holding [true]. *)
Record State := mkState {
  elections : gmap Z Election.t;
  votes : gmap (Z * Z) EncryptedVote.t;
  usedTokens : gset (Z * Z);
  electionVoteHashes : gmap Z (list Z);
  electionAuthority : Z;
  electionCount : Z
}.

(** [msg.sender], [block.timestamp], [block.number] of a transaction. *)
Record Env := mkEnv {
  msg_sender : Z;
  block_timestamp : Z;
  block_number : Z
}.

(** [elections[electionId]] *)
Definition election_at (s : State) (electionId : Z) : Election.t :=
  default Election.zero (elections s !! electionId).

(** [votes[electionId][voteHash]] *)
Definition vote_at (s : State) (electionId voteHash : Z) : EncryptedVote.t :=
  default EncryptedVote.zero (votes s !! (electionId, voteHash)).

(** [usedTokens[electionId][tokenHash]] *)
Definition token_used (s : State) (electionId tokenHash : Z) : bool :=
  bool_decide ((electionId, tokenHash) ∈ usedTokens s).

(** [electionVoteHashes[electionId]] *)
Definition hashes_at (s : State) (electionId : Z) : list Z :=
  default [] (electionVoteHashes s !! electionId).

Definition set_election (electionId : Z) (e : Election.t) (s : State) : State :=
  mkState (<[electionId := e]> (elections s)) (votes s) (usedTokens s)
          (electionVoteHashes s) (electionAuthority s) (electionCount s).

(** [usedTokens[electionId][tokenHash] = b] *)
Definition set_token (electionId tokenHash : Z) (b : bool) (s : State) : State :=
  mkState (elections s) (votes s)
          (if b then usedTokens s ∪ {[ (electionId, tokenHash) ]}
           else usedTokens s ∖ {[ (electionId, tokenHash) ]})
          (electionVoteHashes s) (electionAuthority s) (electionCount s).

Definition set_vote (electionId voteHash : Z) (v : EncryptedVote.t) (s : State) : State :=
  mkState (elections s) (<[(electionId, voteHash) := v]> (votes s)) (usedTokens s)
          (electionVoteHashes s) (electionAuthority s) (electionCount s).

(** [electionVoteHashes[electionId].push(voteHash)] *)
Definition push_hash (electionId voteHash : Z) (s : State) : State :=
  mkState (elections s) (votes s) (usedTokens s)
          (<[electionId := hashes_at s electionId ++ [voteHash]]> (electionVoteHashes s))
          (electionAuthority s) (electionCount s).

Definition set_count (n : Z) (s : State) : State :=
  mkState (elections s) (votes s) (usedTokens s) (electionVoteHashes s)
          (electionAuthority s) n.

(** [constructor()] *)
Definition constructor (env : Env) : State :=
  mkState ∅ ∅ ∅ ∅ (msg_sender env) 0.

(** *** Modifiers *)

Definition onlyAuthority (env : Env) (s : State) : result unit :=
  require (bool_decide (msg_sender env = electionAuthority s)) msg_only_authority.

Definition electionExists (electionId : Z) (s : State) : result unit :=
  require (bool_decide (Election.id (election_at s electionId) = electionId))
          msg_no_election.

Definition electionActive (env : Env) (electionId : Z) (s : State) : result unit :=
  let election := election_at s electionId in
  require (Election.isActive election) msg_not_active;;
  require (bool_decide (Election.startTime election ≤ block_timestamp env)) msg_not_yet_open;;
  require (bool_decide (block_timestamp env ≤ Election.endTime election)) msg_ended;;
  require (negb (Election.isClosed election)) msg_closed.

(** *** Election management *)

Definition createElection (env : Env) (title : string) (startTime endTime : Z)
    (candidatesMerkleRoot : Z) (s : State) : result (Z * State) :=
  onlyAuthority env s;;
  require (bool_decide (block_timestamp env ≤ startTime)) msg_start_in_past;;
  require (bool_decide (startTime < endTime)) msg_end_before_start;;
  count ← checked_incr (electionCount s);
  let electionId := count in
  let election :=
    Election.mk electionId title startTime endTime false false 0 candidatesMerkleRoot in
  Ok (electionId, set_election electionId election (set_count count s)).

Definition openElection (env : Env) (electionId : Z) (s : State) : result State :=
  onlyAuthority env s;;
  electionExists electionId s;;
  let election := election_at s electionId in
  require (negb (Election.isActive election)) msg_already_active;;
  require (negb (Election.isClosed election)) msg_already_closed;;
  Ok (set_election electionId
        (Election.mk (Election.id election) (Election.title election)
           (Election.startTime election) (Election.endTime election)
           true (Election.isClosed election) (Election.totalVotes election)
           (Election.candidatesMerkleRoot election)) s).

Definition closeElection (env : Env) (electionId : Z) (s : State) : result State :=
  onlyAuthority env s;;
  electionExists electionId s;;
  let election := election_at s electionId in
  require (Election.isActive election) msg_close_not_active;;
  require (negb (Election.isClosed election)) msg_already_closed;;
  Ok (set_election electionId
        (Election.mk (Election.id election) (Election.title election)
           (Election.startTime election) (Election.endTime election)
           false true (Election.totalVotes election)
           (Election.candidatesMerkleRoot election)) s).

(** *** Anonymous tokens *)

Definition registerAnonymousToken (env : Env) (electionId tokenHash : Z) (s : State)
  : result State :=
  onlyAuthority env s;;
  electionExists electionId s;;
  require (negb (token_used s electionId tokenHash)) msg_token_registered;;
  Ok (set_token electionId tokenHash false s).

(** *** Voting *)

Definition byte_of_Z (z : Z) : byte :=
  default x00 (Byte.of_N (Z.to_N (z mod 256))).

(** The 32-byte big-endian encoding of a [uint256] or [bytes32]. *)
Definition be32 (z : Z) : list byte :=
  map (λ i : nat, byte_of_Z (z / 256 ^ Z.of_nat (31 - i))) (seq 0 32).

(** [abi.encodePacked(electionId, anonymousTokenHash, encryptedBallot,
    block.timestamp, block.number)] *)
Definition encodePacked_vote (electionId anonymousTokenHash : Z)
    (encryptedBallot : list byte) (timestamp number : Z) : list byte :=
  be32 electionId ++ be32 anonymousTokenHash ++ encryptedBallot
    ++ be32 timestamp ++ be32 number.

Section WithKeccak.

(** [keccak256]: an external capability returning a [bytes32]. *)
Variable keccak256 : list byte → Z.

Definition castVote (env : Env) (electionId anonymousTokenHash : Z)
    (encryptedBallot : list byte) (s : State) : result (Z * State) :=
  electionActive env electionId s;;
  require (bool_decide (token_used s electionId anonymousTokenHash = false)) msg_token_used;;
  let s := set_token electionId anonymousTokenHash true s in
  let voteHash := keccak256 (encodePacked_vote electionId anonymousTokenHash
                               encryptedBallot (block_timestamp env) (block_number env)) in
  require (bool_decide (EncryptedVote.voteHash (vote_at s electionId voteHash) = 0))
          msg_collision;;
  let s := set_vote electionId voteHash
             (EncryptedVote.mk voteHash encryptedBallot anonymousTokenHash
                (block_timestamp env) (block_number env)) s in
  let s := push_hash electionId voteHash s in
  let election := election_at s electionId in
  total ← checked_incr (Election.totalVotes election);
  let s := set_election electionId
             (Election.mk (Election.id election) (Election.title election)
                (Election.startTime election) (Election.endTime election)
                (Election.isActive election) (Election.isClosed election)
                total (Election.candidatesMerkleRoot election)) s in
  Ok (voteHash, s).

(** *** Verification (views) *)

Definition verifyVoteInclusion (electionId voteHash : Z) (s : State) : bool * Z * Z :=
  let vote := vote_at s electionId voteHash in
  (negb (bool_decide (EncryptedVote.voteHash vote = 0)),
   EncryptedVote.timestamp vote,
   EncryptedVote.blockNumber vote).

Definition getElectionVoteHashes (electionId : Z) (s : State) : list Z :=
  hashes_at s electionId.

(** *** Transactions and reachable states *)

Inductive Call :=
| CreateElection (title : string) (startTime endTime candidatesMerkleRoot : Z)
| OpenElection (electionId : Z)
| CloseElection (electionId : Z)
| RegisterAnonymousToken (electionId tokenHash : Z)
| CastVote (electionId anonymousTokenHash : Z) (encryptedBallot : list byte).

(** The storage after a transaction; a reverted transaction has no effect
    and produces no successor state. *)
Definition exec (env : Env) (c : Call) (s : State) : result State :=
  match c with
  | CreateElection title startTime endTime root =>
      snd <$> createElection env title startTime endTime root s
  | OpenElection electionId => openElection env electionId s
  | CloseElection electionId => closeElection env electionId s
  | RegisterAnonymousToken electionId tokenHash =>
      registerAnonymousToken env electionId tokenHash s
  | CastVote electionId tokenHash ballot =>
      snd <$> castVote env electionId tokenHash ballot s
  end.

(** A sequence of transactions, each of which must succeed. *)
Fixpoint run (txs : list (Env * Call)) (s : State) : result State :=
  match txs with
  | [] => Ok s
  | (env, c) :: rest => s' ← exec env c s; run rest s'
  end.

Inductive steps : State → State → Prop :=
| steps_refl s : steps s s
| steps_step s env c s' s'' :
    steps s s' → exec env c s' = Ok s'' → steps s s''.

Definition reachable (s : State) : Prop :=
  ∃ deployer, steps (constructor deployer) s.

End WithKeccak.

(** The lifecycle state encoded by the two flags of an election:
    created (inactive, not closed), opened (active), closed. *)
Inductive Phase := Created | Opened | Closed.

Definition phase (e : Election.t) : Phase :=
  if Election.isClosed e then Closed
  else if Election.isActive e then Opened
  else Created.

(** Well-formedness of the storage: ids are issued in sequence, an election
    slot holds its own id, vote hashes exist only for stored elections, the
    vote counter equals the number of recorded hashes, and a closed election
    is inactive. *)
Definition well_formed (s : State) : Prop :=
  0 ≤ electionCount s ∧
  (∀ i e, elections s !! i = Some e → Election.id e = i ∧ 0 ≤ i ≤ electionCount s) ∧
  (∀ i, is_Some (electionVoteHashes s !! i) → is_Some (elections s !! i)) ∧
  (∀ i, Election.totalVotes (election_at s i) = Z.of_nat (length (hashes_at s i))) ∧
  (∀ i, Election.isClosed (election_at s i) = true →
        Election.isActive (election_at s i) = false).

End VotingSystem.

(** ** src/contracts/VotingSystem.sol : the remaining views, and the
    bookkeeping that ties votes, vote hashes and tokens together *)
Module VotingSystemViews.
Import VotingSystem.

Definition msg_no_votes : string := "Aucun vote".

(** [getElection(electionId)]: six fields of [elections[electionId]]. *)
Definition getElection (electionId : Z) (s : State)
  : string * Z * Z * bool * bool * Z :=
  let election := election_at s electionId in
  (Election.title election, Election.startTime election, Election.endTime election,
   Election.isActive election, Election.isClosed election, Election.totalVotes election).

(** [abi.encodePacked(voteHashes)] for a [bytes32[]]: the elements in order,
    32 bytes each. *)
Definition encodePacked_hashes (voteHashes : list Z) : list byte :=
  concat (map be32 voteHashes).

Section WithKeccak.
Variable keccak256 : list byte → Z.

Definition calculateVotesMerkleRoot (electionId : Z) (s : State) : result Z :=
  let voteHashes := hashes_at s electionId in
  require (bool_decide (0 < length voteHashes)%nat) msg_no_votes;;
  Ok (keccak256 (encodePacked_hashes voteHashes)).

End WithKeccak.

(** The tokens consumed in one election: the slots of [usedTokens[electionId]]
    holding [true]. *)
Definition tokens_of (s : State) (electionId : Z) : gset (Z * Z) :=
  filter (λ p, p.1 = electionId) (usedTokens s).

(** Bookkeeping kept by the transactions: every id from 1 to [electionCount]
    is stored; a stored vote sits under its own hash, its hash is listed, its
    token is consumed, its election is stored and its timestamp lies in the
    election's window; every listed hash has a stored vote; and an election
    has as many consumed tokens as listed hashes. *)
Definition consistent (s : State) : Prop :=
  (∀ i, 1 ≤ i ≤ electionCount s → is_Some (elections s !! i)) ∧
  (∀ i h v, votes s !! (i, h) = Some v →
     EncryptedVote.voteHash v = h ∧
     h ∈ hashes_at s i ∧
     token_used s i (EncryptedVote.anonymousTokenHash v) = true ∧
     is_Some (elections s !! i) ∧
     Election.startTime (election_at s i) ≤ EncryptedVote.timestamp v
       ≤ Election.endTime (election_at s i)) ∧
  (∀ i h, h ∈ hashes_at s i → is_Some (votes s !! (i, h))) ∧
  (∀ i, size (tokens_of s i) = length (hashes_at s i)).

End VotingSystemViews.

(** ** src/unnamed/part_002 (second document) : class MerkleTreeDebug

    The [while] loop of [buildTree] is the one of [MerkleTree] in
    src/zkp-server.js and reuses its model; the log lines that can throw are
    part of the model. *)
Module MerkleTreeDebug.
Import ZkpServer.

Section WithPoseidon.
Variable poseidon : Z → Z → Z.

(** [getRoot()]: [this.tree[this.tree.length - 1][0].toString()]; [None] is
    the TypeError on an undefined entry. *)
Definition getRoot (tree : list (list Z)) : option Z :=
  last tree ≫= head.

(** [buildTree(leaves)]: the loop, then [root = tree[tree.length - 1][0]]
    and the log line with [root.toString()], a TypeError ([None]) when the
    last level is empty. *)
Definition buildTree (leaves : list Z) : option (list (list Z)) :=
  tree ← levelsFrom poseidon (length leaves) leaves;
  _ ← getRoot tree;
  Some tree.

(** [new MerkleTreeDebug(leaves)]: no check on [leaves], and
    [this.tree = this.buildTree(this.leaves)]. *)
Definition newMerkleTreeDebug (leaves : list Z) : option (list (list Z)) :=
  buildTree leaves.

(** The [for (level = 0; level < this.tree.length - 1; level++)] loop of
    [getProofDebug].  [layers] are the layers not yet visited; the last layer
    is never visited.  [None] is a TypeError: [sibling.toString()] when both
    [layer[siblingIndex]] and [layer[currentIndex]] are undefined, or
    [layer[currentIndex].toString()] in the log line that follows when
    [layer[currentIndex]] is undefined. *)
Fixpoint proofLoopDebug (layers : list (list Z)) (currentIndex : nat)
  : option (list Z * list Z) :=
  match layers with
  | [] => Some ([], [])
  | layer :: upper =>
    match upper with
    | [] => Some ([], [])
    | _ :: _ =>
      let isRight := (currentIndex mod 2)%nat in
      let siblingIndex := if decide (isRight = 0%nat) then (currentIndex + 1)%nat
                          else (currentIndex - 1)%nat in
      let sibling := match layer !! siblingIndex with
                     | Some s => Some s
                     | None => layer !! currentIndex
                     end in
      match sibling with
      | None => None
      | Some s =>
        match layer !! currentIndex with
        | None => None
        | Some _ =>
          '(es, bs) ← proofLoopDebug upper (currentIndex / 2)%nat;
          Some (s :: es, Z.of_nat isRight :: bs)
        end
      end
    end
  end.

(** [getProofDebug(index)]: the loop, the padding to 20 entries, and
    [actualLevels], the number of iterations of the loop (one entry is
    pushed and [currentLevel] incremented at each). *)
Definition getProofDebug (tree : list (list Z)) (index : nat)
  : option (MerkleProof * nat) :=
  '(es, bs) ← proofLoopDebug tree index;
  Some (padProof es bs, length es).

(** [verifyProofManually(leaf, pathElements, pathIndices)]: the fold,
    compared with [this.getRoot()]; [None] when [getRoot] throws. *)
Definition verifyProofManually (tree : list (list Z)) (leaf : Z)
    (pathElements pathIndices : list Z) : option bool :=
  root ← getRoot tree;
  Some (bool_decide (foldPath poseidon leaf pathElements pathIndices = root)).

End WithPoseidon.
End MerkleTreeDebug.

(** ** merkle-helper.js : [MerkleTreeHelper.verifyPath] *)
Module MerkleHelperVerify.

Section WithPoseidon.
Variable hash : Z → Z → Z.

(** The loop of [verifyPath]: [isLeft = path.indices[i] === 0], an element
    equal to ['0'] is skipped, otherwise [hash(currentHash, sibling)] when
    [isLeft] and [hash(sibling, currentHash)] when not. *)
Fixpoint foldPath (currentHash : Z) (elements indices : list Z) : Z :=
  match elements with
  | [] => currentHash
  | sibling :: elements' =>
    let isLeft := bool_decide (head indices = Some 0) in
    if decide (sibling = 0) then foldPath currentHash elements' (tail indices)
    else if isLeft then foldPath (hash currentHash sibling) elements' (tail indices)
    else foldPath (hash sibling currentHash) elements' (tail indices)
  end.

(** [verifyPath(leaf, path, root)]: [currentHash === BigInt(root).toString()];
    the hexadecimal string returned by [getRoot] is identified with the
    integer it denotes. *)
Definition verifyPath (leaf : Z) (elements indices : list Z) (root : Z) : bool :=
  bool_decide (foldPath leaf elements indices = root).

End WithPoseidon.
End MerkleHelperVerify.

(** The number whose binary digits, least significant first, are [bits]. *)
Fixpoint bitsValue (bits : list Z) : Z :=
  match bits with
  | [] => 0
  | b :: bits' => b + 2 * bitsValue bits'
  end.

(** ** voter_eligibility.circom (last document of
    src/benchmark/k6-vote-simulation-fixed.js)

    Signals are elements of the prime field of the proving system, modelled
    by integers read modulo [p]: the witness calculator reduces every input
    modulo [p], every assignment [<==] computes its right-hand side modulo
    [p], and a constraint [===] is an equality modulo [p]. *)
Module EligibilityCircuit.

Section WithField.

(** The field modulus, and the circomlib components [Poseidon(2)] and
    [Poseidon(3)]. *)
Variable p : Z.
Variable Poseidon2 : Z → Z → Z.
Variable Poseidon3 : Z → Z → Z → Z.

(** circomlib's [IsZero()]: [out] is 1 when [in] is zero and 0 otherwise. *)
Definition IsZero (x : Z) : Z := if decide (x mod p = 0) then 1 else 0.

(** [template Selector()]:
    [left <== left_input + (right_input - left_input) * s];
    [right <== right_input + (left_input - right_input) * s]. *)
Definition Selector (left_input right_input s : Z) : Z * Z :=
  ((left_input + (right_input - left_input) * s) mod p,
   (right_input + (left_input - right_input) * s) mod p).

(** The loop of [template MerkleTreeChecker(levels)], from [levelHashes[i]]
    to [levelHashes[levels]]:
    [levelHashes[i + 1] <== levelHashes[i] +
       (hashers[i].out - levelHashes[i]) * (1 - isZero[i].out)]. *)
Fixpoint levelHashes (current : Z) (pathElements pathIndices : list Z) : Z :=
  match pathElements, pathIndices with
  | element :: pathElements', s :: pathIndices' =>
    let isZero := IsZero element in
    let '(l, r) := Selector current element s in
    let out := Poseidon2 l r in
    levelHashes ((current + (out - current) * (1 - isZero)) mod p)
      pathElements' pathIndices'
  | _, _ => current
  end.

(** [template MerkleTreeChecker(levels)]: [levelHashes[0] <== leaf], the
    loop, and the constraint [root === levelHashes[levels]]. *)
Definition MerkleTreeChecker (leaf root : Z) (pathElements pathIndices : list Z) : bool :=
  bool_decide
    (root mod p = levelHashes (leaf mod p) pathElements pathIndices mod p).

(** [template VoterEligibility()] run on its six inputs, the two arrays
    holding 20 signals each: the inputs as field elements, the membership
    constraint, then the output [nullifier]. The path signals are only ever
    read modulo [p] ([IsZero] and [Selector] reduce them). [None] stands for
    a failed witness generation: a path that has not 20 entries, or the
    constraint of [MerkleTreeChecker(20)] not holding. *)
Definition VoterEligibility (voterNationalId voterSecret : Z)
    (merklePathElements merklePathIndices : list Z) (merkleRoot electionId : Z)
  : option Z :=
  let voterNationalId := voterNationalId mod p in
  let voterSecret := voterSecret mod p in
  let merkleRoot := merkleRoot mod p in
  let electionId := electionId mod p in
  if decide (length merklePathElements = 20%nat ∧ length merklePathIndices = 20%nat)
  then
    if MerkleTreeChecker voterNationalId merkleRoot
         merklePathElements merklePathIndices
    then Some (Poseidon3 voterNationalId voterSecret electionId)
    else None
  else None.

End WithField.
End EligibilityCircuit.

(** ** Sample hash functions used to run the models on concrete inputs *)
Module Samples.

(** A stand-in for the two-input Poseidon hash. *)
Definition samplePoseidon (l r : Z) : Z := 1 + 2 * Z.abs l + 3 * Z.abs r.

(** A stand-in for keccak256 returning a non-zero [bytes32]. *)
Definition sampleKeccak (data : list byte) : Z :=
  1 + fold_left (λ acc b, (acc * 257 + Z.of_N (Byte.to_N b)) mod (2 ^ 256 - 1)) data 0.

(** A stand-in for ethers' keccak256 on byte strings: 32 bytes out. *)
Definition sampleKeccakBytes (data : list byte) : list byte :=
  VotingSystem.be32 (sampleKeccak data).

(** [String(index)] for a safe integer [index]: its decimal digits. *)
Definition decimal (index : N) : string := pretty index.

(** The authority (address 1) deploys the contract in block 0; [authority_at t]
    and [voter_at t] are transactions sent at time [t] in block [t]. *)
Definition deploy : VotingSystem.Env := VotingSystem.mkEnv 1 0 0.
Definition authority_at (t : Z) : VotingSystem.Env := VotingSystem.mkEnv 1 t t.
Definition voter_at (t : Z) : VotingSystem.Env := VotingSystem.mkEnv 2 t t.

Definition ballot : list byte := [x01; x02; x03].
Definition otherBallot : list byte := [x04].

(** Election 1 runs from time 10 to time 20 and is opened at time 10. *)
Definition setup : list (VotingSystem.Env * VotingSystem.Call) :=
  [ (authority_at 5, VotingSystem.CreateElection "E" 10 20 0);
    (authority_at 10, VotingSystem.OpenElection 1) ].

Definition opened : VotingSystem.State :=
  match VotingSystem.run sampleKeccak setup (VotingSystem.constructor deploy) with
  | VotingSystem.Ok s => s
  | _ => VotingSystem.constructor deploy
  end.

(** ... then token 7 is registered at time 12 and voted with at time 15 ... *)
Definition voted : VotingSystem.State :=
  match VotingSystem.run sampleKeccak
          [ (authority_at 12, VotingSystem.RegisterAnonymousToken 1 7);
            (voter_at 15, VotingSystem.CastVote 1 7 ballot) ] opened with
  | VotingSystem.Ok s => s
  | _ => opened
  end.

(** ... and the election is closed at time 21. *)
Definition voted_and_closed : VotingSystem.State :=
  match VotingSystem.run sampleKeccak
          [ (authority_at 12, VotingSystem.RegisterAnonymousToken 1 7);
            (voter_at 15, VotingSystem.CastVote 1 7 ballot);
            (authority_at 21, VotingSystem.CloseElection 1) ] opened with
  | VotingSystem.Ok s => s
  | _ => opened
  end.

(** ... after which the authority creates a second election at time 22. *)
Definition after_closing : VotingSystem.State :=
  match VotingSystem.run sampleKeccak
          [ (authority_at 22, VotingSystem.CreateElection "F" 30 40 0) ]
          voted_and_closed with
  | VotingSystem.Ok s => s
  | _ => voted_and_closed
  end.

End Samples.

Module FieldSamples.

(** A small prime field with stand-ins for [Poseidon(2)] and [Poseidon(3)]. *)
Definition p : Z := 101.
Definition Poseidon2 (a b : Z) : Z := (1 + 2 * a + 3 * b) mod p.
Definition Poseidon3 (a b c : Z) : Z := (1 + 2 * a + 3 * b + 5 * c) mod p.

End FieldSamples.

(** Two-step induction on lists, following the stride-2 [for] loops. *)
Lemma list_pair_ind {A} (P : list A → Prop) :
  P [] → (∀ x, P [x]) → (∀ x y l, P l → P (x :: y :: l)) → ∀ l, P l.
Proof.
  intros H0 H1 H2.
  assert (H : ∀ l, P l ∧ ∀ x, P (x :: l)).
  { induction l as [|y l [IHl IHl']]; split; auto. }
  intros l. apply H.
Qed.

(** * Properties of the Merkle tree of src/zkp-server.js *)
Module ZkpServerFacts.
Import ZkpServer.

Section WithPoseidon.
Variable poseidon : Z → Z → Z.

Local Abbreviation nextLevel := (nextLevel poseidon).
Local Abbreviation levelsFrom := (levelsFrom poseidon).
Local Abbreviation buildTree := (buildTree poseidon).
Local Abbreviation newMerkleTree := (newMerkleTree poseidon).
Local Abbreviation foldPath := (foldPath poseidon).

Lemma levelsFrom_unfold fuel level :
  levelsFrom fuel level =
  if decide (length level ≤ 1)%nat then Some [level]
  else match fuel with
       | O => None
       | S fuel' => cons level <$> levelsFrom fuel' (nextLevel level)
       end.
Proof. by destruct fuel. Qed.

(** Each pass of the pairing loop produces [ceil(n / 2)] parents. *)
Lemma nextLevel_length level :
  length (nextLevel level) = ((length level + 1) / 2)%nat.
Proof.
  induction level as [|x|x y l IH] using list_pair_ind; [done..|].
  cbn [nextLevel length]. rewrite IH.
  replace (S (S (length l)) + 1)%nat with ((length l + 1) + 1 * 2)%nat by lia.
  rewrite Nat.div_add by lia. lia.
Qed.

(** The [while] loop terminates: [length leaves] iterations suffice. *)
Lemma levelsFrom_total fuel level :
  (length level ≤ S fuel)%nat → is_Some (levelsFrom fuel level).
Proof.
  revert level. induction fuel as [|fuel IH]; intros level Hlen;
    rewrite levelsFrom_unfold; case_decide; eauto; [lia|].
  destruct (IH (nextLevel level)) as [t Ht]; [|rewrite Ht; eauto].
  rewrite nextLevel_length.
  assert ((length level + 1) / 2 < length level)%nat; [|lia].
  apply Nat.Div0.div_lt_upper_bound; lia.
Qed.

Lemma buildTree_total leaves : is_Some (buildTree leaves).
Proof. apply levelsFrom_total. lia. Qed.

Lemma newMerkleTree_total leaves : leaves ≠ [] → is_Some (newMerkleTree leaves).
Proof. destruct leaves; [done|]. intros _. apply buildTree_total. Qed.

Lemma levelsFrom_head fuel level tree :
  levelsFrom fuel level = Some tree → ∃ upper, tree = level :: upper.
Proof.
  rewrite levelsFrom_unfold. case_decide; [intros [= <-]; eauto|].
  destruct fuel; [done|].
  destruct (levelsFrom fuel (nextLevel level)); intros [= <-]; eauto.
Qed.

(** Parent of an even-indexed node: hashed with its right neighbour, or
    with itself when it is the unpaired last node. *)
Lemma nextLevel_lookup_even level k x :
  level !! (2 * k)%nat = Some x →
  nextLevel level !! k = Some (poseidon x (default x (level !! (2 * k + 1)%nat))).
Proof.
  revert level. induction k as [|k IH]; intros [|a [|b rest]] H; try done.
  - by injection H as ->.
  - by injection H as ->.
  - replace (2 * S k)%nat with (S (S (2 * k))) in H by lia.
    replace (2 * S k + 1)%nat with (S (S (2 * k + 1))) by lia.
    cbn in H |- *. by apply IH.
Qed.

(** Parent of an odd-indexed node: its left neighbour hashed with it. *)
Lemma nextLevel_lookup_odd level k x :
  level !! (2 * k + 1)%nat = Some x →
  ∃ y, level !! (2 * k)%nat = Some y ∧ nextLevel level !! k = Some (poseidon y x).
Proof.
  revert level. induction k as [|k IH]; intros [|a [|b rest]] H; try done.
  - injection H as ->. eauto.
  - replace (2 * S k + 1)%nat with (S (S (2 * k + 1))) in H by lia.
    replace (2 * S k)%nat with (S (S (2 * k))) by lia.
    cbn in H |- *. by apply IH.
Qed.

Lemma getRoot_cons level (upper : list (list Z)) :
  upper ≠ [] → getRoot (level :: upper) = getRoot upper.
Proof. by destruct upper. Qed.

Lemma foldPath_padding x es bs n :
  length es = length bs →
  foldPath x (es ++ replicate n 0) (bs ++ replicate n 0) = foldPath x es bs.
Proof.
  revert x bs. induction es as [|e es IH]; intros x [|b bs] Hlen; try done.
  - clear Hlen. induction n as [|n IHn]; [done|]. cbn. by case_decide.
  - cbn in Hlen |- *. case_decide; apply IH; lia.
Qed.

Lemma proofLoop_step layer next upper i :
  proofLoop (layer :: next :: upper) i =
  match (match layer !! (if decide ((i mod 2)%nat = 0%nat) then (i + 1)%nat
                         else (i - 1)%nat) with
         | Some s => Some s
         | None => layer !! i
         end) with
  | None => None
  | Some s =>
    '(es, bs) ← proofLoop (next :: upper) (i / 2)%nat;
    Some (s :: es, Z.of_nat (i mod 2) :: bs)
  end.
Proof. done. Qed.

(** From a node of [level], [getProof]'s loop succeeds on the tree built
    above [level], and folding the recorded siblings climbs to the root as
    long as no recorded sibling is mistaken for padding. *)
Lemma proofLoop_fold fuel : ∀ level tree i x,
  levelsFrom fuel level = Some tree →
  level !! i = Some x →
  ∃ es bs root,
    proofLoop tree i = Some (es, bs) ∧ length es = length bs ∧
    getRoot tree = Some root ∧
    (Forall (Forall (λ v, v ≠ 0)) tree → root = foldPath x es bs).
Proof.
  induction fuel as [|fuel IH]; intros level tree i x Ht Hi;
    rewrite levelsFrom_unfold in Ht; case_decide as Hlen.
  1,3: injection Ht as <-; exists [], [], x; split_and!; [done..| |done];
       apply lookup_lt_Some in Hi as Hlt;
       assert (i = 0)%nat as -> by lia; by destruct level.
  { done. }
  destruct (levelsFrom fuel (nextLevel level)) as [upper|] eqn:Hup; [|done].
  injection Ht as <-.
  destruct (levelsFrom_head _ _ _ Hup) as [upper' ->].
  rewrite getRoot_cons by done.
  pose proof (Nat.div_mod_eq i 2) as Hdm.
  pose proof (Nat.mod_upper_bound i 2 ltac:(lia)) as Hmod.
  rewrite proofLoop_step. set (k := (i / 2)%nat) in *.
  destruct (i mod 2)%nat as [|[|?]] eqn:Hm; [| |lia].
  - assert (i = 2 * k)%nat as Hik by lia.
    pose proof Hi as Hpar. rewrite Hik in Hpar.
    apply nextLevel_lookup_even in Hpar. rewrite <- Hik in Hpar.
    destruct (IH _ _ _ _ Hup Hpar) as (es & bs & root & Hloop & Hl & Hroot & Hfold).
    rewrite Hloop. rewrite decide_True by done.
    set (s := default x (level !! (i + 1)%nat)) in *.
    assert (Hs : match level !! (i + 1)%nat with
                 | Some s' => Some s'
                 | None => level !! i
                 end = Some s).
    { subst s. by destruct (level !! (i + 1)%nat). }
    rewrite Hs. exists (s :: es), (0 :: bs), root.
    split_and!; [done|cbn; lia|done|].
    intros [Hlevel Hupper]%Forall_cons.
    assert (s ≠ 0) as Hsnz.
    { subst s. destruct (level !! (i + 1)%nat) as [s'|] eqn:Hs'; cbn.
      - eapply Forall_lookup_1 in Hlevel; eauto.
      - eapply Forall_lookup_1 in Hlevel; eauto. }
    rewrite (Hfold Hupper). cbn. rewrite decide_False by done.
    by rewrite decide_False by done.
  - assert (i = 2 * k + 1)%nat as Hik by lia.
    pose proof Hi as Hpar. rewrite Hik in Hpar.
    apply nextLevel_lookup_odd in Hpar as (y & Hy & Hpar).
    destruct (IH _ _ _ _ Hup Hpar) as (es & bs & root & Hloop & Hl & Hroot & Hfold).
    rewrite Hloop. rewrite decide_False by done.
    replace (i - 1)%nat with (2 * k)%nat by lia. rewrite Hy.
    exists (y :: es), (1 :: bs), root.
    split_and!; [done|cbn; lia|done|].
    intros [Hlevel Hupper]%Forall_cons.
    assert (y ≠ 0) as Hynz by (eapply Forall_lookup_1 in Hlevel; eauto).
    rewrite (Hfold Hupper). cbn. rewrite decide_False by done.
    by rewrite decide_True by done.
Qed.

(** On a level of odd length the unpaired last node is hashed with itself. *)
Lemma nextLevel_unpaired_last level x :
  Nat.Even (length level) →
  nextLevel (level ++ [x]) = nextLevel level ++ [poseidon x x].
Proof.
  induction level as [|y|y z l IH] using list_pair_ind; intros Hev; [done| |].
  - destruct Hev as [n Hn]. cbn in Hn. lia.
  - cbn. f_equal. apply IH. destruct Hev as [n Hn]. exists (n - 1)%nat.
    cbn in Hn. lia.
Qed.

(** C1, evaluated on the code: over leaves [a, b, c] [buildTree] returns the
    levels [[a, b, c]], [[hash(a,b), hash(c,c)]] and the root; the unpaired
    node [c] is not carried to level 1 but hashed with itself. *)
Theorem buildTree_three_leaves a b c :
  buildTree [a; b; c] =
  Some [[a; b; c];
        [poseidon a b; poseidon c c];
        [poseidon (poseidon a b) (poseidon c c)]].
Proof. reflexivity. Qed.

(** The real part of a path has one entry per level below the root. *)
Lemma proofLoop_length : ∀ tree i es bs,
  proofLoop tree i = Some (es, bs) →
  length es = (length tree - 1)%nat ∧ length bs = (length tree - 1)%nat.
Proof.
  induction tree as [|layer [|next upper] IH]; intros i es bs.
  - by intros [= <- <-].
  - by intros [= <- <-].
  - rewrite proofLoop_step.
    destruct (match layer !! _ with Some s => Some s | None => layer !! i end)
      as [s|]; [|done].
    destruct (proofLoop (next :: upper) (i / 2)%nat) as [[es' bs']|] eqn:Hl; [|done].
    cbn -[Nat.div Nat.modulo]. intros [= <- <-].
    destruct (IH _ _ _ Hl) as [Hes Hbs]. cbn in *. lia.
Qed.

Lemma half_le_pow n k : (n ≤ 2 ^ S k → (n + 1) / 2 ≤ 2 ^ k)%nat.
Proof.
  rewrite Nat.pow_succ_r'. generalize (2 ^ k)%nat. intros m Hn.
  assert ((n + 1) / 2 < m + 1)%nat; [|lia].
  apply Nat.Div0.div_lt_upper_bound. lia.
Qed.

Lemma half_gt_pow n k : (2 ^ S k < n → 2 ^ k < (n + 1) / 2)%nat.
Proof.
  rewrite Nat.pow_succ_r'. generalize (2 ^ k)%nat. intros m Hn.
  assert (m + 1 ≤ (n + 1) / 2)%nat; [|lia].
  apply Nat.div_le_lower_bound; lia.
Qed.

(** Up to [2^k] leaves give at most [k] levels below the root ... *)
Lemma levelsFrom_height fuel : ∀ level tree k,
  levelsFrom fuel level = Some tree →
  (length level ≤ 2 ^ k)%nat → (length tree ≤ S k)%nat.
Proof.
  induction fuel as [|fuel IH]; intros level tree k Ht Hlen;
    rewrite levelsFrom_unfold in Ht; case_decide as Hshort;
    try (injection Ht as <-; cbn; lia); [done|].
  destruct (levelsFrom fuel (nextLevel level)) as [upper|] eqn:Hup; [|done].
  injection Ht as <-.
  destruct k as [|k]; [cbn in Hlen; lia|].
  cbn [length]. apply le_n_S. eapply IH; [done|].
  rewrite nextLevel_length. by apply half_le_pow.
Qed.

(** ... and more than [2^k] leaves give more than [k]. *)
Lemma levelsFrom_height_lower fuel : ∀ level tree k,
  levelsFrom fuel level = Some tree →
  (2 ^ k < length level)%nat → (S (S k) ≤ length tree)%nat.
Proof.
  induction fuel as [|fuel IH]; intros level tree k Ht Hlen;
    rewrite levelsFrom_unfold in Ht; case_decide as Hshort.
  1,3: pose proof (Nat.pow_nonzero 2 k); lia.
  { done. }
  destruct (levelsFrom fuel (nextLevel level)) as [upper|] eqn:Hup; [|done].
  injection Ht as <-.
  destruct k as [|k].
  - destruct (levelsFrom_head _ _ _ Hup) as [? ->]. cbn. lia.
  - cbn [length]. apply le_n_S. eapply IH; [done|].
    rewrite nextLevel_length. by apply half_gt_pow.
Qed.

(** For a tree within the capacity of [2^TREE_DEPTH] leaves, [getProof]
    returns exactly [TREE_DEPTH] elements and [TREE_DEPTH] bits. *)
Lemma getProof_length leaves tree i p :
  newMerkleTree leaves = Some tree →
  (length leaves ≤ 2 ^ TREE_DEPTH)%nat →
  getProof tree i = Some p →
  length (pathElements p) = TREE_DEPTH ∧ length (pathIndices p) = TREE_DEPTH.
Proof.
  intros Hnew Hcap Hp.
  assert (buildTree leaves = Some tree) as Ht by (by destruct leaves).
  apply levelsFrom_height with (k := TREE_DEPTH) in Ht; [|done].
  unfold getProof in Hp.
  destruct (proofLoop tree i) as [[es bs]|] eqn:Hl; [|done].
  injection Hp as <-. destruct (proofLoop_length _ _ _ _ Hl) as [Hes Hbs].
  unfold padProof. cbn [pathElements pathIndices].
  rewrite !length_app, !length_replicate. lia.
Qed.

(** Beyond that capacity the path is not cut: it has more than
    [TREE_DEPTH] entries. *)
Lemma getProof_length_over_capacity leaves tree i p :
  newMerkleTree leaves = Some tree →
  (2 ^ TREE_DEPTH < length leaves)%nat →
  getProof tree i = Some p →
  (TREE_DEPTH < length (pathElements p))%nat.
Proof.
  intros Hnew Hcap Hp.
  assert (buildTree leaves = Some tree) as Ht by (by destruct leaves).
  apply levelsFrom_height_lower with (k := TREE_DEPTH) in Ht; [|done].
  unfold getProof in Hp.
  destruct (proofLoop tree i) as [[es bs]|] eqn:Hl; [|done].
  injection Hp as <-. destruct (proofLoop_length _ _ _ _ Hl) as [Hes Hbs].
  unfold padProof. cbn [pathElements pathIndices].
  rewrite !length_app, !length_replicate. lia.
Qed.

(** C7, evaluated on the code: for leaves [a, b, c] and the last leaf (index
    2, which has no sibling at level 0) [getProof] records the node [c]
    itself at level 0, not 0; the entries after the two real levels are the
    eighteen (0, 0) padding pairs. *)
Theorem getProof_three_leaves_last a b c :
  ∃ tree, newMerkleTree [a; b; c] = Some tree ∧
    getProof tree 2 =
    Some (mkProof (c :: poseidon a b :: replicate 18 0) (0 :: 1 :: replicate 18 0)).
Proof. eexists. split; reflexivity. Qed.

(** C6 (amended): for every non-empty leaf list and every index in range the
    tree is built, [getProof] returns a path and [getRoot] a root; and when
    no node of the tree is 0, folding the path from the leaf (hashing with
    each non-zero element in the recorded order, skipping zeros) gives
    exactly that root. *)
Theorem getProof_fold_reaches_root (leaves : list Z) (i : nat) (x : Z) :
  leaves !! i = Some x →
  ∃ tree p root,
    newMerkleTree leaves = Some tree ∧
    getProof tree i = Some p ∧
    getRoot tree = Some root ∧
    (Forall (Forall (λ v, v ≠ 0)) tree →
     rootsMatch poseidon x p root = true).
Proof.
  intros Hi.
  destruct (buildTree_total leaves) as [tree Ht].
  destruct (proofLoop_fold _ _ _ _ _ Ht Hi)
    as (es & bs & root & Hloop & Hlen & Hroot & Hfold).
  exists tree, (padProof es bs), root. split_and!; [|by unfold getProof; rewrite Hloop|done|].
  - by destruct leaves.
  - intros Hnz. unfold rootsMatch, padProof. cbn [pathElements pathIndices].
    rewrite foldPath_padding by done. apply bool_decide_eq_true. by rewrite Hfold.
Qed.

(** A sibling whose value is 0 is skipped by the fold although [buildTree]
    hashed it: over leaves [a, 0] the path of leaf 0 folds back to [a],
    while the root is [hash(a, 0)]. *)
Lemma zero_sibling_skipped a :
  ∃ tree p,
    newMerkleTree [a; 0] = Some tree ∧
    getProof tree 0 = Some p ∧
    getRoot tree = Some (poseidon a 0) ∧
    foldPath a (pathElements p) (pathIndices p) = a.
Proof. eexists _, _. split_and!; reflexivity. Qed.

End WithPoseidon.

(** C6 at a concrete input: leaves [1, 2, 3], index 0. *)
Lemma getProof_fold_reaches_root_witness :
  [1; 2; 3] !! 0%nat = Some 1 ∧
  ∃ tree p root,
    newMerkleTree Samples.samplePoseidon [1; 2; 3] = Some tree ∧
    getProof tree 0 = Some p ∧
    getRoot tree = Some root ∧
    (Forall (Forall (λ v, v ≠ 0)) tree →
     rootsMatch Samples.samplePoseidon 1 p root = true).
Proof.
  split; [reflexivity|].
  apply (getProof_fold_reaches_root Samples.samplePoseidon [1; 2; 3] 0 1).
  reflexivity.
Defined.

(** On that input no node is 0 and the fold does reach the root. *)
Example three_leaves_roundtrip :
  ∃ tree p root,
    newMerkleTree Samples.samplePoseidon [1; 2; 3] = Some tree ∧
    getProof tree 0 = Some p ∧
    getRoot tree = Some root ∧
    Forall (Forall (λ v, v ≠ 0)) tree ∧
    rootsMatch Samples.samplePoseidon 1 p root = true.
Proof.
  eexists _, _, _. split_and!; try reflexivity.
  repeat (constructor; try done).
Qed.

(** C6 as stated fails when a real sibling is 0: over leaves [5, 0] the path
    of leaf 0 records the sibling 0, the fold skips it and ends on 5, which
    is not the root [hash(5, 0)]. *)
Lemma roundtrip_fails_on_zero_sibling :
  ∃ tree p root,
    newMerkleTree Samples.samplePoseidon [5; 0] = Some tree ∧
    getProof tree 0 = Some p ∧
    getRoot tree = Some root ∧
    rootsMatch Samples.samplePoseidon 5 p root = false.
Proof. eexists _, _, _. split_and!; reflexivity. Qed.

End ZkpServerFacts.

(** * Properties of MerkleTreeHelper (merkle-helper.js) *)
Module MerkleHelperFacts.
Import MerkleHelper.

Section WithPoseidon.
Variable hash : Z → Z → Z.

(** The helper carries the unpaired node: over [a, b, c] (with [b] not the
    padding value) level 1 is [[hash(a,b), c]]. *)
Lemma buildTree_carries_unpaired a b c :
  b ≠ 0 → buildTree hash [a; b; c] !! 1%nat = Some [hash a b; c].
Proof. intros Hb. cbn. by rewrite decide_False. Qed.

Lemma pathLoop_length n : ∀ layers index es bs,
  pathLoop n layers index = Some (es, bs) → length es = n ∧ length bs = n.
Proof.
  induction n as [|n IH]; intros layers index es bs; cbn -[Nat.div Nat.modulo].
  - by intros [= <- <-].
  - destruct layers as [|layer upper]; [done|].
    destruct (pathLoop n upper (index / 2)%nat) as [[es' bs']|] eqn:Hl; [|done].
    cbn. intros [= <- <-]. destruct (IH _ _ _ _ Hl). cbn. lia.
Qed.

(** The helper's path always has exactly 20 (element, bit) pairs. *)
Lemma getMerklePath_length leaves tree leafIndex es bs :
  getMerklePath leaves tree leafIndex = Some (es, bs) →
  length es = 20%nat ∧ length bs = 20%nat.
Proof. unfold getMerklePath. case_decide; [done|]. apply pathLoop_length. Qed.

(** For the last of three leaves the helper records the sentinel 0 at every
    level where the node has no sibling. *)
Lemma getMerklePath_three_leaves_last a b c :
  b ≠ 0 →
  getMerklePath [a; b; c] (buildTree hash [a; b; c]) 2 =
  Some (0 :: hash a b :: replicate 18 0, 0 :: 1 :: replicate 18 0).
Proof. intros Hb. cbn. by rewrite decide_False. Qed.

End WithPoseidon.
End MerkleHelperFacts.

(** * Properties of the nullifier helper of src/benchmark/zkp-helper.js *)
Module ZkpHelperFacts.
Import ZkpHelper.

Lemma be32_length z : length (VotingSystem.be32 z) = 32%nat.
Proof. reflexivity. Qed.

Lemma sampleKeccakBytes_length data : length (Samples.sampleKeccakBytes data) = 32%nat.
Proof. apply be32_length. Qed.



(** The strings hashed for voter 7. *)
Example generateVoterId_input :
  ("CNI" +:+ padStart10 (Samples.decimal 7))%string = "CNI0000000007"%string ∧
  ("SECRET" +:+ padStart10 (Samples.decimal 7))%string = "SECRET0000000007"%string.
Proof. split; reflexivity. Qed.

End ZkpHelperFacts.

(** * Properties of the VotingSystem contract *)
Module VotingSystemFacts.
Import VotingSystem.

(** ** The transaction monad *)

Lemma require_bind_Ok {A} (b : bool) (m : string) (k : result A) (r : A) :
  (require b m;; k) = Ok r ↔ b = true ∧ k = Ok r.
Proof. destruct b; cbn; split; try done; intros [? ?]; done. Qed.



Lemma checked_incr_Ok x y : checked_incr x = Ok y ↔ x < MAX_UINT256 ∧ y = x + 1.
Proof.
  unfold checked_incr. case_decide; split; try done.
  - by intros [= <-].
  - by intros [_ ->].
  - by intros [? _].
Qed.

Lemma fmap_Ok {A B} (f : A → B) (r : result A) (y : B) :
  f <$> r = Ok y ↔ ∃ x, r = Ok x ∧ y = f x.
Proof.
  destruct r; cbn; split; try done.
  - intros [= <-]. eauto.
  - by intros (? & [= <-] & ->).
  - by intros (? & ? & _).
  - by intros (? & ? & _).
Qed.

(** ** Reading storage after a write *)

Lemma election_at_set_election i e s j :
  election_at (set_election i e s) j = if decide (i = j) then e else election_at s j.
Proof.
  unfold election_at, set_election; cbn. rewrite lookup_insert.
  by case_decide.
Qed.

Lemma hashes_at_push_hash i h s j :
  hashes_at (push_hash i h s) j =
  if decide (i = j) then hashes_at s j ++ [h] else hashes_at s j.
Proof.
  unfold hashes_at at 1. unfold push_hash; cbn. rewrite lookup_insert.
  case_decide; by subst.
Qed.

Lemma vote_at_set_vote i h v s j h' :
  vote_at (set_vote i h v s) j h' =
  if decide ((i, h) = (j, h')) then v else vote_at s j h'.
Proof.
  unfold vote_at, set_vote; cbn. rewrite lookup_insert. by case_decide.
Qed.

Lemma token_used_set_token i t b s j t' :
  token_used (set_token i t b s) j t' =
  if decide ((i, t) = (j, t')) then b else token_used s j t'.
Proof.
  unfold token_used, set_token; cbn.
  destruct b; case_decide as Heq.
  - apply bool_decide_eq_true. set_solver.
  - apply bool_decide_ext. set_solver.
  - apply bool_decide_eq_false. set_solver.
  - apply bool_decide_ext. set_solver.
Qed.

Create Rewrite HintDb storage.

(** Writes to one storage variable leave the others untouched. *)
Lemma election_at_set_token i t b s j :
  election_at (set_token i t b s) j = election_at s j.
Proof. done. Qed.

Lemma election_at_set_vote i h v s j :
  election_at (set_vote i h v s) j = election_at s j.
Proof. done. Qed.

Lemma election_at_push_hash i h s j :
  election_at (push_hash i h s) j = election_at s j.
Proof. done. Qed.

Lemma election_at_set_count n s j :
  election_at (set_count n s) j = election_at s j.
Proof. done. Qed.

Lemma hashes_at_set_election i e s j :
  hashes_at (set_election i e s) j = hashes_at s j.
Proof. done. Qed.

Lemma hashes_at_set_token i t b s j :
  hashes_at (set_token i t b s) j = hashes_at s j.
Proof. done. Qed.

Lemma hashes_at_set_vote i h v s j :
  hashes_at (set_vote i h v s) j = hashes_at s j.
Proof. done. Qed.

Lemma hashes_at_set_count n s j :
  hashes_at (set_count n s) j = hashes_at s j.
Proof. done. Qed.

Lemma vote_at_set_election i e s j h' :
  vote_at (set_election i e s) j h' = vote_at s j h'.
Proof. done. Qed.

Lemma vote_at_set_token i t b s j h' :
  vote_at (set_token i t b s) j h' = vote_at s j h'.
Proof. done. Qed.

Lemma vote_at_push_hash i g s j h' :
  vote_at (push_hash i g s) j h' = vote_at s j h'.
Proof. done. Qed.

Lemma vote_at_set_count n s j h' :
  vote_at (set_count n s) j h' = vote_at s j h'.
Proof. done. Qed.

Lemma token_used_set_election i e s j t' :
  token_used (set_election i e s) j t' = token_used s j t'.
Proof. done. Qed.

Lemma token_used_set_vote i h v s j t' :
  token_used (set_vote i h v s) j t' = token_used s j t'.
Proof. done. Qed.

Lemma token_used_push_hash i h s j t' :
  token_used (push_hash i h s) j t' = token_used s j t'.
Proof. done. Qed.

Lemma token_used_set_count n s j t' :
  token_used (set_count n s) j t' = token_used s j t'.
Proof. done. Qed.

#[local] Hint Rewrite election_at_set_token election_at_set_vote election_at_push_hash election_at_set_count hashes_at_set_election hashes_at_set_token hashes_at_set_vote hashes_at_set_count vote_at_set_election vote_at_set_token vote_at_push_hash vote_at_set_count token_used_set_election token_used_set_vote token_used_push_hash token_used_set_count election_at_set_election hashes_at_push_hash vote_at_set_vote token_used_set_token : storage.

(** ** What a successful call does *)

Lemma createElection_Ok env title startTime endTime root s i s' :
  createElection env title startTime endTime root s = Ok (i, s') ↔
  msg_sender env = electionAuthority s ∧
  block_timestamp env ≤ startTime ∧
  startTime < endTime ∧
  electionCount s < MAX_UINT256 ∧
  i = electionCount s + 1 ∧
  s' = set_election i (Election.mk i title startTime endTime false false 0 root)
         (set_count i s).
Proof.
  unfold createElection, onlyAuthority. rewrite !require_bind_Ok.
  rewrite !bool_decide_eq_true.
  unfold checked_incr. case_decide; cbn; split.
  - intros (? & ? & ? & [= <- <-]). done.
  - intros (? & ? & ? & ? & -> & ->). done.
  - intros (? & ? & ? & ?). done.
  - intros (? & ? & ? & ? & _). done.
Qed.

Lemma openElection_Ok env i s s' :
  openElection env i s = Ok s' ↔
  msg_sender env = electionAuthority s ∧
  Election.id (election_at s i) = i ∧
  Election.isActive (election_at s i) = false ∧
  Election.isClosed (election_at s i) = false ∧
  s' = set_election i
         (Election.mk (Election.id (election_at s i)) (Election.title (election_at s i))
            (Election.startTime (election_at s i)) (Election.endTime (election_at s i))
            true (Election.isClosed (election_at s i))
            (Election.totalVotes (election_at s i))
            (Election.candidatesMerkleRoot (election_at s i))) s.
Proof.
  unfold openElection, onlyAuthority, electionExists. rewrite !require_bind_Ok.
  rewrite !bool_decide_eq_true, !negb_true_iff. split.
  - intros (? & ? & ? & ? & [= <-]). done.
  - intros (? & ? & ? & ? & ->). done.
Qed.

Lemma closeElection_Ok env i s s' :
  closeElection env i s = Ok s' ↔
  msg_sender env = electionAuthority s ∧
  Election.id (election_at s i) = i ∧
  Election.isActive (election_at s i) = true ∧
  Election.isClosed (election_at s i) = false ∧
  s' = set_election i
         (Election.mk (Election.id (election_at s i)) (Election.title (election_at s i))
            (Election.startTime (election_at s i)) (Election.endTime (election_at s i))
            false true
            (Election.totalVotes (election_at s i))
            (Election.candidatesMerkleRoot (election_at s i))) s.
Proof.
  unfold closeElection, onlyAuthority, electionExists. rewrite !require_bind_Ok.
  rewrite !bool_decide_eq_true, !negb_true_iff. split.
  - intros (? & ? & ? & ? & [= <-]). done.
  - intros (? & ? & ? & ? & ->). done.
Qed.

Lemma registerAnonymousToken_Ok env i t s s' :
  registerAnonymousToken env i t s = Ok s' ↔
  msg_sender env = electionAuthority s ∧
  Election.id (election_at s i) = i ∧
  token_used s i t = false ∧
  s' = set_token i t false s.
Proof.
  unfold registerAnonymousToken, onlyAuthority, electionExists.
  rewrite !require_bind_Ok.
  rewrite !bool_decide_eq_true, !negb_true_iff. split.
  - intros (? & ? & ? & [= <-]). done.
  - intros (? & ? & ? & ->). done.
Qed.

Lemma electionActive_Ok env i s u :
  electionActive env i s = Ok u ↔
  Election.isActive (election_at s i) = true ∧
  Election.startTime (election_at s i) ≤ block_timestamp env ∧
  block_timestamp env ≤ Election.endTime (election_at s i) ∧
  Election.isClosed (election_at s i) = false.
Proof.
  unfold electionActive. cbv zeta. rewrite !require_bind_Ok.
  rewrite !bool_decide_eq_true. destruct u.
  destruct (Election.isClosed (election_at s i)); cbn; naive_solver.
Qed.

Section WithKeccak.
Variable keccak256 : list byte → Z.

Local Abbreviation castVote := (castVote keccak256).
Local Abbreviation exec := (exec keccak256).
Local Abbreviation steps := (steps keccak256).
Local Abbreviation reachable := (reachable keccak256).

(** The digest [castVote] computes in transaction [env]. *)
Local Abbreviation voteHashOf env i t ballot :=
  (keccak256 (encodePacked_vote i t ballot (block_timestamp env) (block_number env))).

Lemma castVote_Ok env i t ballot s h s' :
  castVote env i t ballot s = Ok (h, s') ↔
  electionActive env i s = Ok () ∧
  token_used s i t = false ∧
  h = voteHashOf env i t ballot ∧
  EncryptedVote.voteHash (vote_at s i h) = 0 ∧
  Election.totalVotes (election_at s i) < MAX_UINT256 ∧
  s' = set_election i
         (Election.mk (Election.id (election_at s i)) (Election.title (election_at s i))
            (Election.startTime (election_at s i)) (Election.endTime (election_at s i))
            (Election.isActive (election_at s i)) (Election.isClosed (election_at s i))
            (Election.totalVotes (election_at s i) + 1)
            (Election.candidatesMerkleRoot (election_at s i)))
         (push_hash i h
            (set_vote i h
               (EncryptedVote.mk h ballot t (block_timestamp env) (block_number env))
               (set_token i t true s))).
Proof.
  unfold VotingSystem.castVote.
  destruct (electionActive env i s) as [[]| |] eqn:Hact; cbn; [|naive_solver..].
  rewrite !require_bind_Ok, !bool_decide_eq_true.
  change (vote_at (set_token i t true s) i ?x) with (vote_at s i x).
  change (election_at (push_hash ?a ?b (set_vote ?c ?d ?e (set_token ?f ?g ?k s))) i)
    with (election_at s i).
  unfold checked_incr. case_decide; cbn; split.
  - intros (? & ? & [= <- <-]). done.
  - intros (_ & ? & -> & ? & ? & ->). done.
  - intros (? & ? & ?). done.
  - intros (_ & ? & ? & ? & ? & _). done.
Qed.

(** ** The storage invariant *)

Lemma well_formed_constructor env : well_formed (constructor env).
Proof. unfold well_formed, election_at, hashes_at; cbn. split_and!; try done.
  - intros i [? H]. by rewrite lookup_empty in H.
Qed.

Lemma election_at_unstored s i :
  well_formed s → electionCount s < i → election_at s i = Election.zero.
Proof.
  intros (_ & Hid & _) Hlt. unfold election_at.
  destruct (elections s !! i) as [e|] eqn:He; [|done].
  apply Hid in He. lia.
Qed.

Lemma hashes_at_unstored s i :
  well_formed s → elections s !! i = None → hashes_at s i = [].
Proof.
  intros (_ & _ & Hh & _) Hnone. unfold hashes_at.
  destruct (electionVoteHashes s !! i) as [l|] eqn:Hl; [|done].
  destruct (Hh i) as [? ?]; [eauto|congruence].
Qed.


Lemma existing_id_range s i :
  well_formed s → Election.id (election_at s i) = i → 0 ≤ i ≤ electionCount s.
Proof.
  intros (Hcount & Hid & _). unfold election_at.
  destruct (elections s !! i) as [e|] eqn:He; cbn.
  - intros _. by apply Hid in He as [_ ?].
  - intros <-. lia.
Qed.

Lemma active_election_stored s i :
  Election.isActive (election_at s i) = true → is_Some (elections s !! i).
Proof. unfold election_at. destruct (elections s !! i); [eauto|done]. Qed.

Lemma well_formed_exec env c s s' :
  well_formed s → exec env c s = Ok s' → well_formed s'.
Proof.
  intros Hwf Hexec. pose proof Hwf as (Hcount & Hid & Hh & Htot & Hflag).
  destruct c as [title st en root|i|i|i t|i t ballot]; cbn in Hexec.
  - apply fmap_Ok in Hexec as ([j s1] & Hc & ->).
    apply createElection_Ok in Hc as (_ & _ & _ & _ & -> & ->).
    unfold well_formed. cbn -[election_at hashes_at].
    split_and!; [lia| | | |].
    + intros i e. rewrite lookup_insert. case_decide as Heq.
      * intros [= <-]. cbn. lia.
      * intros He. apply Hid in He. lia.
    + intros i Hs. apply Hh in Hs. rewrite lookup_insert. case_decide; eauto.
    + intros i. rewrite election_at_set_election. case_decide as Heq; [|apply Htot].
      subst i. cbn. change (hashes_at _ ?x) with (hashes_at s x).
      rewrite hashes_at_unstored; [done..|].
      destruct (elections s !! _) as [e|] eqn:He; [|done]. apply Hid in He. lia.
    + intros i. rewrite election_at_set_election. case_decide; [done|apply Hflag].
  - apply openElection_Ok in Hexec as (_ & Hex & Hact & Hcl & ->).
    unfold well_formed. cbn -[election_at hashes_at].
    split_and!; [done| | | |].
    + intros j e. rewrite lookup_insert. case_decide as Heq; [|apply Hid].
      subst j. intros [= <-]. cbn. split; [done|by apply existing_id_range].
    + intros j Hs. apply Hh in Hs. rewrite lookup_insert. case_decide; eauto.
    + intros j. rewrite election_at_set_election. case_decide as Heq; [|apply Htot].
      subst j. cbn. apply Htot.
    + intros j. rewrite election_at_set_election. case_decide as Heq; [|apply Hflag].
      subst j. cbn. congruence.
  - apply closeElection_Ok in Hexec as (_ & Hex & Hact & Hcl & ->).
    unfold well_formed. cbn -[election_at hashes_at].
    split_and!; [done| | | |].
    + intros j e. rewrite lookup_insert. case_decide as Heq; [|apply Hid].
      subst j. intros [= <-]. cbn. split; [done|by apply existing_id_range].
    + intros j Hs. apply Hh in Hs. rewrite lookup_insert. case_decide; eauto.
    + intros j. rewrite election_at_set_election. case_decide as Heq; [|apply Htot].
      subst j. cbn. apply Htot.
    + intros j. rewrite election_at_set_election. case_decide as Heq; [|apply Hflag].
      subst j. done.
  - apply registerAnonymousToken_Ok in Hexec as (_ & _ & _ & ->). exact Hwf.
  - apply fmap_Ok in Hexec as ([h s1] & Hc & ->).
    apply castVote_Ok in Hc as (Hact & _ & _ & _ & _ & ->).
    apply electionActive_Ok in Hact as (Hact & _).
    destruct (active_election_stored _ _ Hact) as [e He].
    unfold well_formed. cbn -[election_at hashes_at].
    split_and!; [done| | | |].
    + intros j e'. rewrite lookup_insert. case_decide as Heq; [|apply Hid].
      subst j. intros [= <-]. cbn. apply Hid in He as Hrange.
      unfold election_at. rewrite He. done.
    + intros j. rewrite !lookup_insert. case_decide; [eauto|apply Hh].
    + intros j. autorewrite with storage.
      case_decide as Heq; [|apply Htot].
      subst j. cbn. rewrite length_app, Htot. cbn. lia.
    + intros j. autorewrite with storage.
      case_decide as Heq; [|apply Hflag].
      subst j. cbn. apply Hflag.
Qed.

Lemma well_formed_steps s s' : well_formed s → steps s s' → well_formed s'.
Proof. intros Hwf. induction 1; eauto using well_formed_exec. Qed.

Lemma well_formed_reachable s : reachable s → well_formed s.
Proof. intros [env Hs]. eapply well_formed_steps; eauto using well_formed_constructor. Qed.

(** ** Monotonicity along transactions *)

(** A consumed token stays consumed. *)
Lemma token_used_exec env c s s' i t :
  exec env c s = Ok s' → token_used s i t = true → token_used s' i t = true.
Proof.
  intros Hexec Hused.
  destruct c as [title st en root|j|j|j u|j u ballot]; cbn in Hexec.
  - apply fmap_Ok in Hexec as ([k s1] & Hc & ->).
    apply createElection_Ok in Hc as (_ & _ & _ & _ & -> & ->). done.
  - apply openElection_Ok in Hexec as (_ & _ & _ & _ & ->). done.
  - apply closeElection_Ok in Hexec as (_ & _ & _ & _ & ->). done.
  - apply registerAnonymousToken_Ok in Hexec as (_ & _ & Hfree & ->).
    rewrite token_used_set_token. case_decide as Heq; [|done].
    injection Heq as -> ->. congruence.
  - apply fmap_Ok in Hexec as ([h s1] & Hc & ->).
    apply castVote_Ok in Hc as (_ & _ & _ & _ & _ & ->).
    cbn. autorewrite with storage. by case_decide.
Qed.

(** A recorded vote is never overwritten. *)
Lemma vote_at_exec env c s s' i h :
  exec env c s = Ok s' →
  EncryptedVote.voteHash (vote_at s i h) ≠ 0 →
  vote_at s' i h = vote_at s i h.
Proof.
  intros Hexec Hvote.
  destruct c as [title st en root|j|j|j u|j u ballot]; cbn in Hexec.
  - apply fmap_Ok in Hexec as ([k s1] & Hc & ->).
    apply createElection_Ok in Hc as (_ & _ & _ & _ & -> & ->). done.
  - apply openElection_Ok in Hexec as (_ & _ & _ & _ & ->). done.
  - apply closeElection_Ok in Hexec as (_ & _ & _ & _ & ->). done.
  - apply registerAnonymousToken_Ok in Hexec as (_ & _ & _ & ->). done.
  - apply fmap_Ok in Hexec as ([g s1] & Hc & ->).
    apply castVote_Ok in Hc as (_ & _ & _ & Hfresh & _ & ->).
    cbn. autorewrite with storage. case_decide as Heq; [|done].
    injection Heq as -> ->. congruence.
Qed.

Lemma token_used_steps s s' i t :
  steps s s' → token_used s i t = true → token_used s' i t = true.
Proof. induction 1; eauto using token_used_exec. Qed.

Lemma vote_at_steps s s' i h :
  steps s s' →
  EncryptedVote.voteHash (vote_at s i h) ≠ 0 →
  vote_at s' i h = vote_at s i h.
Proof.
  induction 1 as [|s env c s' s'' Hsteps IH Hexec]; [done|].
  intros Hvote. rewrite <- (IH Hvote).
  eapply vote_at_exec; [done|]. by rewrite (IH Hvote).
Qed.

(** A vote with a consumed token is rejected: by the token check when the
    election passes the [electionActive] modifier, by the modifier otherwise. *)
Lemma castVote_used_token env i t ballot s :
  token_used s i t = true →
  (electionActive env i s = Ok () →
   castVote env i t ballot s = Revert msg_token_used) ∧
  (∀ r, castVote env i t ballot s ≠ Ok r).
Proof.
  intros Hused. split.
  - intros Hact. unfold VotingSystem.castVote. rewrite Hact. cbn.
    by rewrite Hused.
  - intros [h s'] Hc. apply castVote_Ok in Hc as (_ & Hfree & _). congruence.
Qed.

Lemma run_steps txs s s' : run keccak256 txs s = Ok s' → steps s s'.
Proof.
  intros Hrun. cut (∀ s0, steps s0 s → steps s0 s'); [eauto using steps_refl|].
  revert s Hrun. induction txs as [|[env c] txs IH]; intros s Hrun s0 Hs0.
  - by injection Hrun as <-.
  - cbn in Hrun. destruct (exec env c s) as [s1| |] eqn:Hexec; [|done..].
    eapply IH; [exact Hrun|]. eapply steps_step; eauto.
Qed.

(** ** Election lifecycle *)

Lemma phase_Created e :
  phase e = Created ↔ Election.isActive e = false ∧ Election.isClosed e = false.
Proof. unfold phase. destruct (Election.isClosed e), (Election.isActive e); naive_solver. Qed.

Lemma phase_Opened e :
  phase e = Opened ↔ Election.isActive e = true ∧ Election.isClosed e = false.
Proof. unfold phase. destruct (Election.isClosed e), (Election.isActive e); naive_solver. Qed.

Lemma phase_Closed e : phase e = Closed ↔ Election.isClosed e = true.
Proof. unfold phase. destruct (Election.isClosed e), (Election.isActive e); naive_solver. Qed.

(** C5: in every reachable state a transaction leaves the lifecycle state of
    an election unchanged, or moves it from Created to Opened (and the
    transaction is [openElection] on it), or from Opened to Closed (and the
    transaction is [closeElection] on it); so Closed has no successor.
    Both moves are available to the authority: [openElection] succeeds on an
    existing Created election and [closeElection] on an Opened one.
    [openElection] called by the authority on a Closed election reverts with
    "L'election est deja cloturee". *)
Theorem lifecycle_is_linear s :
  reachable s →
  (∀ env i,
     msg_sender env = electionAuthority s →
     Election.id (election_at s i) = i →
     phase (election_at s i) = Created →
     ∃ s', openElection env i s = Ok s' ∧ phase (election_at s' i) = Opened) ∧
  (∀ env i,
     msg_sender env = electionAuthority s →
     phase (election_at s i) = Opened →
     ∃ s', closeElection env i s = Ok s' ∧ phase (election_at s' i) = Closed) ∧
  (∀ env c s' i,
     exec env c s = Ok s' →
     phase (election_at s' i) = phase (election_at s i) ∨
     (phase (election_at s i) = Created ∧ phase (election_at s' i) = Opened ∧
      c = OpenElection i) ∨
     (phase (election_at s i) = Opened ∧ phase (election_at s' i) = Closed ∧
      c = CloseElection i)) ∧
  (∀ env c s' i,
     exec env c s = Ok s' →
     phase (election_at s i) = Closed → phase (election_at s' i) = Closed) ∧
  (∀ env i,
     msg_sender env = electionAuthority s →
     phase (election_at s i) = Closed →
     openElection env i s = Revert msg_already_closed).
Proof.
  intros Hwf%well_formed_reachable.
  assert (Hstep : ∀ env c s' i,
     exec env c s = Ok s' →
     phase (election_at s' i) = phase (election_at s i) ∨
     (phase (election_at s i) = Created ∧ phase (election_at s' i) = Opened ∧
      c = OpenElection i) ∨
     (phase (election_at s i) = Opened ∧ phase (election_at s' i) = Closed ∧
      c = CloseElection i)).
  { intros env c s' i Hexec.
    destruct c as [title st en root|j|j|j u|j u ballot]; cbn in Hexec.
    - apply fmap_Ok in Hexec as ([k s1] & Hc & ->).
      apply createElection_Ok in Hc as (_ & _ & _ & _ & -> & ->).
      left. cbn. autorewrite with storage. case_decide as Heq; [|done].
      subst i. rewrite (election_at_unstored s) by (done || lia). done.
    - apply openElection_Ok in Hexec as (_ & _ & Hact & Hcl & ->).
      autorewrite with storage. case_decide as Heq; [|by left].
      subst j. right; left. unfold phase. cbn. rewrite Hact, Hcl. done.
    - apply closeElection_Ok in Hexec as (_ & _ & Hact & Hcl & ->).
      autorewrite with storage. case_decide as Heq; [|by left].
      subst j. right; right. unfold phase. cbn. rewrite Hact, Hcl. done.
    - apply registerAnonymousToken_Ok in Hexec as (_ & _ & _ & ->). by left.
    - apply fmap_Ok in Hexec as ([h s1] & Hc & ->).
      apply castVote_Ok in Hc as (_ & _ & _ & _ & _ & ->).
      left. cbn. autorewrite with storage. by case_decide; subst. }
  assert (Hstored : ∀ i, phase (election_at s i) ≠ Created →
                         Election.id (election_at s i) = i).
  { intros i. unfold election_at.
    destruct (elections s !! i) as [e|] eqn:He; [|done].
    intros _. destruct Hwf as (_ & Hid & _). by apply Hid in He as [? _]. }
  split_and!; [| |exact Hstep| |].
  - intros env i Hauth Hex [Hact Hcl]%phase_Created. eexists. split.
    + by apply openElection_Ok.
    + autorewrite with storage. rewrite decide_True by done.
      apply phase_Opened. by cbn.
  - intros env i Hauth Hopened. pose proof Hopened as [Hact Hcl]%phase_Opened.
    eexists. split.
    + apply closeElection_Ok. split_and!; try done.
      apply Hstored. congruence.
    + autorewrite with storage. rewrite decide_True by done.
      by apply phase_Closed.
  - intros env c s' i Hexec Hclosed.
    destruct (Hstep env c s' i Hexec) as [->|[(? & _)|(? & _)]]; congruence.
  - intros env i Hauth Hclosed.
    destruct Hwf as (_ & Hid & _ & _ & Hflag).
    apply phase_Closed in Hclosed as Hcl.
    assert (Election.id (election_at s i) = i) as Hex.
    { revert Hcl. unfold election_at.
      destruct (elections s !! i) as [e|] eqn:He; [|done].
      intros _. by apply Hid in He as [? _]. }
    unfold openElection, onlyAuthority, electionExists.
    rewrite (Hflag i Hcl), Hcl, !bool_decide_eq_true_2 by done.
    reflexivity.
Qed.

(** ** Tokens and votes *)

(** Clearing a flag that is not set leaves the storage as it is. *)
Lemma set_token_false_unused s i t :
  token_used s i t = false → set_token i t false s = s.
Proof.
  unfold token_used. intros Hfree%bool_decide_eq_false.
  destruct s as [els vs used hs auth n]; unfold set_token; cbn in *.
  f_equal. set_solver.
Qed.

(** C9: a successful [registerAnonymousToken] returns the storage it was
    given: the slot it writes [false] into already read [false].  Hence the
    token still reads unused, and every view of the contract returns after
    the registration what it returned before it. *)
Theorem registerAnonymousToken_leaves_storage env i t s s' :
  registerAnonymousToken env i t s = Ok s' →
  s' = s ∧
  token_used s' i t = false ∧
  ∀ (A : Type) (view : State → A), view s' = view s.
Proof.
  intros (_ & _ & Hfree & ->)%registerAnonymousToken_Ok.
  by rewrite set_token_false_unused.
Qed.

(** C3: token [t] is registered for election [i], any transactions follow
    in which it is not consumed, and the election is active in transaction
    [env] (flag set, [startTime <= now <= endTime], not closed).  Then the
    first [castVote] with [t] succeeds (the digest being a non-zero [bytes32]
    not yet recorded for the election, and the counter not at its maximum):
    it returns the digest, marks the token used, appends the digest, stores
    the vote and adds exactly 1 to [totalVotes].  In every later state a
    [castVote] with [t] fails, with "Token deja utilise ou invalide" whenever
    the election is active, and [verifyVoteInclusion] reports the vote with
    [exists = true]. *)
Theorem castVote_single_use envR env i t ballot s0 s s1 :
  (∀ data, 0 ≤ keccak256 data < 2 ^ 256) →
  registerAnonymousToken envR i t s0 = Ok s →
  steps s s1 →
  token_used s1 i t = false →
  electionActive env i s1 = Ok () →
  voteHashOf env i t ballot ≠ 0 →
  EncryptedVote.voteHash (vote_at s1 i (voteHashOf env i t ballot)) = 0 →
  Election.totalVotes (election_at s1 i) < MAX_UINT256 →
  ∃ h s2,
    castVote env i t ballot s1 = Ok (h, s2) ∧
    0 ≤ h < 2 ^ 256 ∧
    token_used s2 i t = true ∧
    getElectionVoteHashes i s2 = getElectionVoteHashes i s1 ++ [h] ∧
    vote_at s2 i h =
      EncryptedVote.mk h ballot t (block_timestamp env) (block_number env) ∧
    Election.totalVotes (election_at s2 i) =
      Election.totalVotes (election_at s1 i) + 1 ∧
    ∀ s3, steps s2 s3 →
      (∀ env' ballot', electionActive env' i s3 = Ok () →
         castVote env' i t ballot' s3 = Revert msg_token_used) ∧
      (∀ env' ballot' r, castVote env' i t ballot' s3 ≠ Ok r) ∧
      verifyVoteInclusion i h s3 = (true, block_timestamp env, block_number env).
Proof.
  intros Hrange _ _ Hfree Hact Hnz Hfresh Htotal.
  eexists _, _. split; [apply castVote_Ok; split_and!; done|].
  split; [apply Hrange|].
  split_and!.
  - autorewrite with storage. by rewrite decide_True.
  - unfold getElectionVoteHashes. autorewrite with storage. by rewrite decide_True.
  - autorewrite with storage. by rewrite decide_True.
  - autorewrite with storage. by rewrite decide_True.
  - intros s3 Hsteps.
    match type of Hsteps with steps ?x _ => set (s2 := x) in * end.
    assert (token_used s2 i t = true) as Hused.
    { subst s2. autorewrite with storage. by rewrite decide_True. }
    assert (vote_at s2 i (voteHashOf env i t ballot) =
            EncryptedVote.mk (voteHashOf env i t ballot) ballot t
              (block_timestamp env) (block_number env)) as Hvote.
    { subst s2. autorewrite with storage. by rewrite decide_True. }
    apply (token_used_steps _ _ i t) in Hsteps as Hused3; [|done].
    apply (vote_at_steps _ _ i (voteHashOf env i t ballot)) in Hsteps as Hvote3;
      [|by rewrite Hvote].
    split_and!; [intros; by apply castVote_used_token..|].
    unfold verifyVoteInclusion. rewrite Hvote3, Hvote. cbn.
    by rewrite bool_decide_eq_false_2.
Qed.

(** C10: in every reachable state [totalVotes] of each election equals the
    number of its recorded vote hashes; a successful [castVote] appends
    exactly one hash to its election and adds exactly 1 to its counter, and
    no other successful transaction changes the hashes or the counter of any
    election. *)
Theorem totalVotes_counts_hashes s :
  reachable s →
  (∀ i, Election.totalVotes (election_at s i) =
        Z.of_nat (length (getElectionVoteHashes i s))) ∧
  ∀ env c s' i,
    exec env c s = Ok s' →
    match c with
    | CastVote j t ballot =>
      if decide (j = i) then
        getElectionVoteHashes i s' =
          getElectionVoteHashes i s ++ [voteHashOf env j t ballot] ∧
        Election.totalVotes (election_at s' i) =
          Election.totalVotes (election_at s i) + 1
      else
        getElectionVoteHashes i s' = getElectionVoteHashes i s ∧
        Election.totalVotes (election_at s' i) = Election.totalVotes (election_at s i)
    | _ =>
      getElectionVoteHashes i s' = getElectionVoteHashes i s ∧
      Election.totalVotes (election_at s' i) = Election.totalVotes (election_at s i)
    end.
Proof.
  intros Hwf%well_formed_reachable. split; [apply Hwf|].
  intros env c s' i Hexec. unfold getElectionVoteHashes.
  destruct c as [title st en root|j|j|j u|j u ballot]; cbn in Hexec.
  - apply fmap_Ok in Hexec as ([k s1] & Hc & ->).
    apply createElection_Ok in Hc as (_ & _ & _ & _ & -> & ->).
    cbn. autorewrite with storage. split; [done|].
    case_decide as Heq; [|done].
    subst i. rewrite (election_at_unstored s) by (done || lia). done.
  - apply openElection_Ok in Hexec as (_ & _ & _ & _ & ->).
    autorewrite with storage. split; [done|]. by case_decide; subst.
  - apply closeElection_Ok in Hexec as (_ & _ & _ & _ & ->).
    autorewrite with storage. split; [done|]. by case_decide; subst.
  - apply registerAnonymousToken_Ok in Hexec as (_ & _ & _ & ->). done.
  - apply fmap_Ok in Hexec as ([h s1] & Hc & ->).
    apply castVote_Ok in Hc as (_ & _ & -> & _ & _ & ->).
    cbv [snd]. autorewrite with storage. case_decide; [|done].
    by subst j.
Qed.

End WithKeccak.

(** ** The contract on sample transactions *)

Lemma sampleKeccak_range data : 0 ≤ Samples.sampleKeccak data < 2 ^ 256.
Proof.
  unfold Samples.sampleKeccak.
  assert (∀ acc, 0 ≤ acc < 2 ^ 256 - 1 →
          0 ≤ fold_left (λ acc b, (acc * 257 + Z.of_N (Byte.to_N b)) mod (2 ^ 256 - 1))
                data acc < 2 ^ 256 - 1) as H.
  { induction data as [|b data IH]; intros acc Hacc; [done|].
    cbn [fold_left]. apply IH. apply Z.mod_pos_bound. lia. }
  specialize (H 0 ltac:(lia)). lia.
Qed.

Example run_setup :
  run Samples.sampleKeccak Samples.setup (constructor Samples.deploy) = Ok Samples.opened.
Proof. vm_compute. reflexivity. Qed.

Example run_vote_and_close :
  run Samples.sampleKeccak
    [ (Samples.authority_at 12, RegisterAnonymousToken 1 7);
      (Samples.voter_at 15, CastVote 1 7 Samples.ballot);
      (Samples.authority_at 21, CloseElection 1) ] Samples.opened
  = Ok Samples.voted_and_closed.
Proof. vm_compute. reflexivity. Qed.

Lemma reachable_opened : reachable Samples.sampleKeccak Samples.opened.
Proof. exists Samples.deploy. eapply run_steps, run_setup. Qed.

Lemma reachable_voted_and_closed :
  reachable Samples.sampleKeccak Samples.voted_and_closed.
Proof.
  destruct reachable_opened as [env Hsteps]. exists env.
  pose proof (run_steps _ _ _ _ run_vote_and_close) as Hmore.
  clear -Hsteps Hmore. induction Hmore; eauto using steps_step.
Qed.

(** The scenario of the specification on the sample election: the vote
    with token 7 is accepted once; a second vote with the same token and
    another ballot is rejected; a vote before the opening or after the
    closing is rejected by the modifier. *)
Example second_vote_rejected :
  run Samples.sampleKeccak
    [ (Samples.authority_at 12, RegisterAnonymousToken 1 7);
      (Samples.voter_at 15, CastVote 1 7 Samples.ballot) ] Samples.opened
    = Ok Samples.voted ∧
  castVote Samples.sampleKeccak (Samples.voter_at 16) 1 7 Samples.otherBallot
    Samples.voted = Revert msg_token_used ∧
  castVote Samples.sampleKeccak (Samples.voter_at 22) 1 8 Samples.ballot
    Samples.voted_and_closed = Revert msg_not_active.
Proof. split_and!; vm_compute; reflexivity. Qed.

(** The sample election after the vote and the closing: closed, one vote. *)
Example voted_and_closed_phase :
  phase (election_at Samples.voted_and_closed 1) = Closed ∧
  Election.totalVotes (election_at Samples.voted_and_closed 1) = 1.
Proof. split; vm_compute; reflexivity. Qed.

(** C5 at the sample state in which election 1 is closed. *)
Lemma lifecycle_is_linear_witness :
  reachable Samples.sampleKeccak Samples.voted_and_closed ∧
  phase (election_at Samples.voted_and_closed 1) = Closed ∧
  openElection (Samples.authority_at 22) 1 Samples.voted_and_closed =
    Revert msg_already_closed.
Proof.
  split; [exact reachable_voted_and_closed|].
  split; [vm_compute; reflexivity|].
  apply (lifecycle_is_linear Samples.sampleKeccak Samples.voted_and_closed
           reachable_voted_and_closed).
  - vm_compute; reflexivity.
  - vm_compute; reflexivity.
Defined.

(** C9 at the sample state: registering token 7 for the opened election. *)
Lemma registerAnonymousToken_leaves_storage_witness :
  registerAnonymousToken (Samples.authority_at 12) 1 7 Samples.opened =
    Ok Samples.opened ∧
  token_used Samples.opened 1 7 = false.
Proof.
  assert (registerAnonymousToken (Samples.authority_at 12) 1 7 Samples.opened =
          Ok Samples.opened) as Hreg by (vm_compute; reflexivity).
  split; [exact Hreg|].
  apply (registerAnonymousToken_leaves_storage
           (Samples.authority_at 12) 1 7 Samples.opened Samples.opened Hreg).
Defined.

(** C3 at the sample state: token 7 registered at time 12, voted at time 15. *)
Lemma castVote_single_use_witness :
  registerAnonymousToken (Samples.authority_at 12) 1 7 Samples.opened =
    Ok Samples.opened ∧
  electionActive (Samples.voter_at 15) 1 Samples.opened = Ok () ∧
  ∃ h s2,
    castVote Samples.sampleKeccak (Samples.voter_at 15) 1 7 Samples.ballot
      Samples.opened = Ok (h, s2) ∧
    0 ≤ h < 2 ^ 256 ∧
    token_used s2 1 7 = true ∧
    getElectionVoteHashes 1 s2 = getElectionVoteHashes 1 Samples.opened ++ [h] ∧
    vote_at s2 1 h = EncryptedVote.mk h Samples.ballot 7 15 15 ∧
    Election.totalVotes (election_at s2 1) =
      Election.totalVotes (election_at Samples.opened 1) + 1 ∧
    ∀ s3, steps Samples.sampleKeccak s2 s3 →
      (∀ env' ballot', electionActive env' 1 s3 = Ok () →
         castVote Samples.sampleKeccak env' 1 7 ballot' s3 = Revert msg_token_used) ∧
      (∀ env' ballot' r, castVote Samples.sampleKeccak env' 1 7 ballot' s3 ≠ Ok r) ∧
      verifyVoteInclusion 1 h s3 = (true, 15, 15).
Proof.
  assert (registerAnonymousToken (Samples.authority_at 12) 1 7 Samples.opened =
          Ok Samples.opened) as Hreg by (vm_compute; reflexivity).
  assert (electionActive (Samples.voter_at 15) 1 Samples.opened = Ok ()) as Hact
    by (vm_compute; reflexivity).
  split; [exact Hreg|]. split; [exact Hact|].
  apply (castVote_single_use Samples.sampleKeccak (Samples.authority_at 12)
           (Samples.voter_at 15) 1 7 Samples.ballot Samples.opened Samples.opened
           Samples.opened sampleKeccak_range Hreg (steps_refl _ _)).
  - vm_compute. reflexivity.
  - exact Hact.
  - vm_compute. discriminate.
  - vm_compute. reflexivity.
  - vm_compute. reflexivity.
Defined.

(** C10 at the sample state reached after one vote. *)
Lemma totalVotes_counts_hashes_witness :
  reachable Samples.sampleKeccak Samples.voted_and_closed ∧
  Election.totalVotes (election_at Samples.voted_and_closed 1) =
    Z.of_nat (length (getElectionVoteHashes 1 Samples.voted_and_closed)).
Proof.
  split; [exact reachable_voted_and_closed|].
  apply (totalVotes_counts_hashes Samples.sampleKeccak Samples.voted_and_closed
           reachable_voted_and_closed).
Defined.

(** C2, evaluated on the code: token 7 was never registered for election 1
    (the only transactions so far created and opened the election), yet
    [castVote] with it succeeds and the vote is recorded. *)
Theorem castVote_accepts_unregistered_token :
  run Samples.sampleKeccak Samples.setup (constructor Samples.deploy) =
    Ok Samples.opened ∧
  ∃ h s',
    castVote Samples.sampleKeccak (Samples.voter_at 15) 1 7 Samples.ballot
      Samples.opened = Ok (h, s') ∧
    getElectionVoteHashes 1 s' = [h] ∧
    Election.totalVotes (election_at s' 1) = 1 ∧
    verifyVoteInclusion 1 h s' = (true, 15, 15).
Proof.
  split; [exact run_setup|].
  eexists _, _. split; [vm_compute; reflexivity|].
  split_and!; vm_compute; reflexivity.
Qed.

(** C8, evaluated on the code: the authority calls [createElection] in a
    block whose timestamp is 100 with [startTime = 100], which is not
    strictly in the future; the call succeeds, returns id 1 and stores the
    election in state Created. *)
Theorem createElection_accepts_start_now :
  ∃ s',
    createElection (Samples.authority_at 100) "E" 100 200 0
      (constructor Samples.deploy) = Ok (1, s') ∧
    Election.startTime (election_at s' 1) = block_timestamp (Samples.authority_at 100) ∧
    phase (election_at s' 1) = Created.
Proof. eexists. split; [vm_compute; reflexivity|]. split; vm_compute; reflexivity. Qed.

End VotingSystemFacts.

(** * Further invariants of the VotingSystem contract *)
Module VotingSystemInvariants.
Import VotingSystem VotingSystemViews VotingSystemFacts.

Lemma tokens_of_set_token_true i t s j :
  token_used s i t = false →
  tokens_of (set_token i t true s) j =
  if decide (i = j) then tokens_of s j ∪ {[ (i, t) ]} else tokens_of s j.
Proof.
  intros _. unfold tokens_of, set_token; cbn.
  case_decide as Heq; apply set_eq; intros [a b];
    rewrite ?elem_of_union, !elem_of_filter, ?elem_of_union, ?elem_of_singleton;
    cbn; naive_solver.
Qed.

Section WithKeccak.
Variable keccak256 : list byte → Z.

Local Abbreviation castVote := (castVote keccak256).
Local Abbreviation exec := (exec keccak256).
Local Abbreviation steps := (steps keccak256).
Local Abbreviation reachable := (reachable keccak256).
Local Abbreviation calculateVotesMerkleRoot := (calculateVotesMerkleRoot keccak256).
Local Abbreviation voteHashOf env i t ballot :=
  (keccak256 (encodePacked_vote i t ballot (block_timestamp env) (block_number env))).

#[local] Hint Rewrite election_at_set_token election_at_set_vote election_at_push_hash
  election_at_set_count hashes_at_set_election hashes_at_set_token hashes_at_set_vote
  hashes_at_set_count vote_at_set_election vote_at_set_token vote_at_push_hash
  vote_at_set_count token_used_set_election token_used_set_vote token_used_push_hash
  token_used_set_count election_at_set_election hashes_at_push_hash vote_at_set_vote
  token_used_set_token : storage.

Lemma consistent_constructor env : consistent (constructor env).
Proof.
  unfold consistent, hashes_at, tokens_of; cbn. split_and!; try done.
  - intros i. lia.
  - intros i h. rewrite lookup_empty. cbn. by intros ?%elem_of_nil.
Qed.

Lemma consistent_exec env c s s' :
  well_formed s → consistent s → exec env c s = Ok s' → consistent s'.
Proof.
  intros Hwf (Hids & Hvote & Hlisted & Hsize) Hexec.
  pose proof Hwf as (Hcount & Hid & _).
  destruct c as [title st en root|i|i|i t|i t ballot]; cbn in Hexec.
  - apply fmap_Ok in Hexec as ([j s1] & Hc & ->).
    apply createElection_Ok in Hc as (_ & _ & _ & _ & -> & ->).
    unfold consistent. cbn -[election_at hashes_at tokens_of token_used].
    split_and!.
    + intros i Hi. rewrite lookup_insert. case_decide; [eauto|].
      apply Hids. lia.
    + intros i h v Hv. destruct (Hvote i h v Hv) as (? & ? & ? & [e He] & ?).
      autorewrite with storage. apply Hid in He as He'.
      rewrite decide_False by lia.
      split_and!; try (done || lia). rewrite lookup_insert_ne by lia. eauto.
    + done.
    + done.
  - apply openElection_Ok in Hexec as (_ & _ & _ & _ & ->).
    unfold consistent. cbn -[election_at hashes_at tokens_of token_used].
    split_and!; [| |done..].
    + intros j Hj. rewrite lookup_insert. case_decide; eauto.
    + intros j h v Hv. destruct (Hvote j h v Hv) as (? & ? & ? & ? & ?).
      autorewrite with storage.
      split_and!; try (done || lia).
      * rewrite lookup_insert. case_decide; eauto.
      * case_decide; subst; cbn; lia.
      * case_decide; subst; cbn; lia.
  - apply closeElection_Ok in Hexec as (_ & _ & _ & _ & ->).
    unfold consistent. cbn -[election_at hashes_at tokens_of token_used].
    split_and!; [| |done..].
    + intros j Hj. rewrite lookup_insert. case_decide; eauto.
    + intros j h v Hv. destruct (Hvote j h v Hv) as (? & ? & ? & ? & ?).
      autorewrite with storage.
      split_and!; try (done || lia).
      * rewrite lookup_insert. case_decide; eauto.
      * case_decide; subst; cbn; lia.
      * case_decide; subst; cbn; lia.
  - apply registerAnonymousToken_Ok in Hexec as (_ & _ & Hfree & ->).
    by rewrite set_token_false_unused.
  - apply fmap_Ok in Hexec as ([g s1] & Hc & ->).
    apply castVote_Ok in Hc as (Hact & Hfree & -> & Hfresh & _ & ->).
    apply electionActive_Ok in Hact as (_ & Hstart & Hend & _).
    set (h := keccak256 _) in *. cbv [snd].
    unfold consistent.
    split_and!.
    + intros j Hj. cbn. rewrite lookup_insert. case_decide; eauto.
    + intros j g v. cbn [votes set_election push_hash set_vote].
      rewrite lookup_insert. case_decide as Heq.
      * injection Heq as <- <-. intros [= <-]. cbn.
        autorewrite with storage. rewrite !decide_True by done. cbn.
        split_and!; try (done || lia).
        -- apply elem_of_app. right. by apply list_elem_of_singleton.
        -- rewrite lookup_insert. by rewrite decide_True.
      * intros Hv. destruct (Hvote j g v Hv) as (? & ? & ? & ? & ?).
        autorewrite with storage.
        split_and!; try (done || lia).
        -- case_decide; [|done]. apply elem_of_app. by left.
        -- case_decide; [done|done].
        -- cbn. rewrite lookup_insert. case_decide; eauto.
        -- case_decide; subst; cbn; lia.
        -- case_decide; subst; cbn; lia.
    + intros j g. autorewrite with storage. cbn [votes set_election push_hash set_vote].
      rewrite lookup_insert. case_decide as Hj.
      * subst j. intros [Hold| ->%list_elem_of_singleton]%elem_of_app.
        -- case_decide; [eauto|]. by apply Hlisted.
        -- rewrite decide_True by done. eauto.
      * intros Hold. rewrite decide_False by congruence. by apply Hlisted.
    + intros j. autorewrite with storage.
      change (tokens_of (set_election ?a ?b (push_hash ?c ?d (set_vote ?e ?f ?g0 ?x))) j)
        with (tokens_of x j).
      rewrite tokens_of_set_token_true by done.
      case_decide as Hj; [|apply Hsize].
      subst j. rewrite size_union, size_singleton, length_app, Hsize; [cbn; lia|].
      apply bool_decide_eq_false in Hfree. unfold tokens_of. set_solver.
Qed.

Lemma consistent_steps s s' :
  steps s s' → well_formed s ∧ consistent s → well_formed s' ∧ consistent s'.
Proof.
  induction 1 as [|s0 env' c s1 s2 Hsteps IH Hexec]; [done|].
  intros H0. destruct (IH H0) as [Hwf Hcons]. split.
  - eapply well_formed_exec; eauto.
  - eapply consistent_exec; eauto.
Qed.

Lemma consistent_reachable s : reachable s → well_formed s ∧ consistent s.
Proof.
  intros [env Hsteps]. eapply consistent_steps; [done|].
  split; [apply well_formed_constructor|apply consistent_constructor].
Qed.

(** ** Authority *)

(** The four administrative calls start with [onlyAuthority]: from any other
    sender each of them reverts with "Seule l'autorite electorale est
    autorisee", whatever its arguments and the state of the election. *)
Theorem admin_calls_revert_for_others env s :
  msg_sender env ≠ electionAuthority s →
  (∀ title startTime endTime root,
     createElection env title startTime endTime root s = Revert msg_only_authority) ∧
  (∀ i, openElection env i s = Revert msg_only_authority) ∧
  (∀ i, closeElection env i s = Revert msg_only_authority) ∧
  (∀ i t, registerAnonymousToken env i t s = Revert msg_only_authority).
Proof.
  intros Hsender.
  unfold createElection, openElection, closeElection, registerAnonymousToken,
    onlyAuthority.
  rewrite bool_decide_eq_false_2 by done. done.
Qed.

Lemma electionAuthority_exec env c s s' :
  exec env c s = Ok s' → electionAuthority s' = electionAuthority s.
Proof.
  intros Hexec.
  destruct c as [title st en root|i|i|i t|i t ballot]; cbn in Hexec.
  - apply fmap_Ok in Hexec as ([j s1] & Hc & ->).
    by apply createElection_Ok in Hc as (_ & _ & _ & _ & -> & ->).
  - by apply openElection_Ok in Hexec as (_ & _ & _ & _ & ->).
  - by apply closeElection_Ok in Hexec as (_ & _ & _ & _ & ->).
  - by apply registerAnonymousToken_Ok in Hexec as (_ & _ & _ & ->).
  - apply fmap_Ok in Hexec as ([h s1] & Hc & ->).
    by apply castVote_Ok in Hc as (_ & _ & _ & _ & _ & ->).
Qed.

(** No transaction changes [electionAuthority]: in every state reached from
    the constructor it is the deployer. *)
Theorem authority_is_the_deployer deployer s :
  steps (constructor deployer) s → electionAuthority s = msg_sender deployer.
Proof.
  intros Hsteps.
  assert (∀ s0, steps s0 s → electionAuthority s = electionAuthority s0) as H.
  { clear. induction 1 as [|s0 env c s1 s2 _ IH Hexec]; [done|].
    by rewrite (electionAuthority_exec _ _ _ _ Hexec). }
  by rewrite (H _ Hsteps).
Qed.

(** ** Election ids *)

(** In a reachable state the [electionExists] modifier passes exactly for the
    ids 0 to [electionCount]: the ids issued by [createElection], and id 0,
    whose never-written slot holds the id 0. *)
Theorem electionExists_iff_issued s i :
  reachable s →
  electionExists i s = Ok () ↔ 0 ≤ i ≤ electionCount s.
Proof.
  intros [Hwf (Hids & _)]%consistent_reachable.
  pose proof Hwf as (Hcount & Hid & _).
  unfold electionExists, require.
  case_bool_decide as Hex; split; try done.
  - intros _. by apply existing_id_range.
  - intros Hrange. exfalso. apply Hex. unfold election_at.
    destruct (elections s !! i) as [e|] eqn:He; cbn.
    + by apply Hid in He as [? _].
    + destruct (decide (i = 0)) as [->|]; [done|].
      destruct (Hids i) as [e' He']; [lia|congruence].
Qed.

(** The fields given to [createElection] are never modified afterwards: for
    a stored election the id, title, schedule and candidates root stay what
    they are through any sequence of transactions. *)
Theorem election_schedule_is_immutable s s' i :
  reachable s →
  is_Some (elections s !! i) →
  steps s s' →
  Election.id (election_at s' i) = Election.id (election_at s i) ∧
  Election.title (election_at s' i) = Election.title (election_at s i) ∧
  Election.startTime (election_at s' i) = Election.startTime (election_at s i) ∧
  Election.endTime (election_at s' i) = Election.endTime (election_at s i) ∧
  Election.candidatesMerkleRoot (election_at s' i) =
    Election.candidatesMerkleRoot (election_at s i).
Proof.
  intros Hwf%well_formed_reachable Hstored Hsteps.
  cut (well_formed s' ∧ is_Some (elections s' !! i) ∧
       Election.id (election_at s' i) = Election.id (election_at s i) ∧
       Election.title (election_at s' i) = Election.title (election_at s i) ∧
       Election.startTime (election_at s' i) = Election.startTime (election_at s i) ∧
       Election.endTime (election_at s' i) = Election.endTime (election_at s i) ∧
       Election.candidatesMerkleRoot (election_at s' i) =
         Election.candidatesMerkleRoot (election_at s i)); [tauto|].
  induction Hsteps as [|s0 env c s1 s2 _ IH Hexec]; [done|].
  destruct (IH Hwf Hstored) as (Hwf1 & [e He] & <- & <- & <- & <- & <-).
  split; [by eapply well_formed_exec|].
  pose proof Hwf1 as (_ & Hid & _). apply Hid in He as Hrange.
  destruct c as [title st en root|j|j|j t|j t ballot]; cbn in Hexec.
  - apply fmap_Ok in Hexec as ([k s3] & Hc & ->).
    apply createElection_Ok in Hc as (_ & _ & _ & _ & -> & ->).
    cbn -[election_at]. autorewrite with storage.
    rewrite decide_False by lia. rewrite lookup_insert_ne by lia.
    split_and!; eauto.
  - apply openElection_Ok in Hexec as (_ & _ & _ & _ & ->).
    cbn -[election_at]. autorewrite with storage. rewrite lookup_insert.
    case_decide; subst; split_and!; eauto.
  - apply closeElection_Ok in Hexec as (_ & _ & _ & _ & ->).
    cbn -[election_at]. autorewrite with storage. rewrite lookup_insert.
    case_decide; subst; split_and!; eauto.
  - apply registerAnonymousToken_Ok in Hexec as (_ & _ & _ & ->). split_and!; eauto.
  - apply fmap_Ok in Hexec as ([h s3] & Hc & ->).
    apply castVote_Ok in Hc as (_ & _ & _ & _ & _ & ->).
    cbn -[election_at]. autorewrite with storage. rewrite lookup_insert.
    case_decide; subst; split_and!; eauto.
Qed.

(** ** Votes *)

(** Outside the Opened state no vote is accepted: in a reachable state a
    [castVote] on an election that is Created or Closed reverts with
    "Election pas active", whatever the token, the ballot and the time. *)
Theorem castVote_needs_open_election s env i t ballot :
  reachable s →
  phase (election_at s i) ≠ Opened →
  castVote env i t ballot s = Revert msg_not_active.
Proof.
  intros (_ & _ & _ & _ & Hflag)%well_formed_reachable Hphase.
  assert (Election.isActive (election_at s i) = false) as Hact.
  { destruct (Election.isActive (election_at s i)) eqn:Hact; [|done].
    destruct (Election.isClosed (election_at s i)) eqn:Hcl.
    - rewrite (Hflag i Hcl) in Hact. done.
    - exfalso. apply Hphase. by apply phase_Opened. }
  unfold VotingSystem.castVote, electionActive. by rewrite Hact.
Qed.

Lemma closed_exec env c s s' i :
  well_formed s →
  phase (election_at s i) = Closed →
  exec env c s = Ok s' →
  phase (election_at s' i) = Closed ∧
  hashes_at s' i = hashes_at s i ∧
  Election.totalVotes (election_at s' i) = Election.totalVotes (election_at s i).
Proof.
  intros Hwf Hclosed Hexec. pose proof Hwf as (_ & Hid & _ & _ & Hflag).
  apply phase_Closed in Hclosed as Hcl.
  destruct c as [title st en root|j|j|j t|j t ballot]; cbn in Hexec.
  - apply fmap_Ok in Hexec as ([k s1] & Hc & ->).
    apply createElection_Ok in Hc as (_ & _ & _ & _ & -> & ->).
    cbn. autorewrite with storage. case_decide as Heq; [|done].
    subst i. rewrite (election_at_unstored s) in Hcl by (done || lia). done.
  - apply openElection_Ok in Hexec as (_ & _ & _ & Hopen & ->).
    autorewrite with storage. case_decide; [subst; congruence|done].
  - apply closeElection_Ok in Hexec as (_ & _ & _ & Hopen & ->).
    autorewrite with storage. case_decide; [subst; congruence|done].
  - by apply registerAnonymousToken_Ok in Hexec as (_ & _ & _ & ->).
  - apply fmap_Ok in Hexec as ([h s1] & Hc & ->).
    apply castVote_Ok in Hc as (Hact & _ & _ & _ & _ & ->).
    apply electionActive_Ok in Hact as (Hact & _).
    cbv [snd]. autorewrite with storage. case_decide; [|done].
    subst j. rewrite (Hflag i Hcl) in Hact. done.
Qed.

(** Closing freezes an election: once Closed in a reachable state it stays
    Closed, and its list of vote hashes and its [totalVotes] never change
    again. *)
Theorem closed_election_is_frozen s s' i :
  reachable s →
  phase (election_at s i) = Closed →
  steps s s' →
  phase (election_at s' i) = Closed ∧
  getElectionVoteHashes i s' = getElectionVoteHashes i s ∧
  Election.totalVotes (election_at s' i) = Election.totalVotes (election_at s i).
Proof.
  intros Hwf%well_formed_reachable Hclosed Hsteps. unfold getElectionVoteHashes.
  cut (well_formed s' ∧ phase (election_at s' i) = Closed ∧
       hashes_at s' i = hashes_at s i ∧
       Election.totalVotes (election_at s' i) = Election.totalVotes (election_at s i));
    [tauto|].
  induction Hsteps as [|s0 env c s1 s2 _ IH Hexec]; [done|].
  destruct (IH Hwf Hclosed) as (Hwf1 & Hcl1 & <- & <-).
  split; [by eapply well_formed_exec|]. by eapply closed_exec.
Qed.

(** [verifyVoteInclusion] agrees with the list of vote hashes: for a hash that
    is not listed it returns [(false, 0, 0)], and for a listed non-zero hash
    it returns [exists = true]. *)
Theorem verifyVoteInclusion_agrees_with_list s i h :
  reachable s →
  (h ∉ getElectionVoteHashes i s → verifyVoteInclusion i h s = (false, 0, 0)) ∧
  (h ∈ getElectionVoteHashes i s → h ≠ 0 →
   ∃ timestamp number, verifyVoteInclusion i h s = (true, timestamp, number)).
Proof.
  intros [_ (_ & Hvote & Hlisted & _)]%consistent_reachable.
  unfold getElectionVoteHashes, verifyVoteInclusion, vote_at. split.
  - intros Hnot. destruct (votes s !! (i, h)) as [v|] eqn:Hv; [|done].
    by apply Hvote in Hv as (_ & ? & _).
  - intros [v Hv]%Hlisted Hnz. rewrite Hv. cbn.
    apply Hvote in Hv as (-> & _). rewrite bool_decide_eq_false_2 by done.
    eauto.
Qed.

(** Every recorded vote consumed its token and was cast inside the window of
    its election: its token reads used, and its timestamp lies between the
    election's [startTime] and [endTime]. *)
Theorem recorded_vote_token_and_time s i h :
  reachable s →
  EncryptedVote.voteHash (vote_at s i h) ≠ 0 →
  token_used s i (EncryptedVote.anonymousTokenHash (vote_at s i h)) = true ∧
  Election.startTime (election_at s i) ≤ EncryptedVote.timestamp (vote_at s i h)
    ≤ Election.endTime (election_at s i).
Proof.
  intros [_ (_ & Hvote & _)]%consistent_reachable. unfold vote_at at 1 2 3.
  destruct (votes s !! (i, h)) as [v|] eqn:Hv; [|done].
  intros _. cbn. unfold vote_at. rewrite Hv. cbn.
  by apply Hvote in Hv as (_ & _ & ? & _ & ?).
Qed.

(** One token per vote: in a reachable state the number of tokens consumed
    in an election equals the number of its vote hashes and its
    [totalVotes]. *)
Theorem one_token_per_vote s i :
  reachable s →
  size (tokens_of s i) = length (getElectionVoteHashes i s) ∧
  Z.of_nat (size (tokens_of s i)) = Election.totalVotes (election_at s i).
Proof.
  intros [Hwf (_ & _ & _ & Hsize)]%consistent_reachable.
  destruct Hwf as (_ & _ & _ & Htot & _).
  unfold getElectionVoteHashes. rewrite Htot, Hsize. done.
Qed.

(** [calculateVotesMerkleRoot] reverts with "Aucun vote" exactly for the
    elections whose [totalVotes] is 0; otherwise it returns the digest of the
    listed hashes, 32 bytes each, in insertion order. *)
Theorem calculateVotesMerkleRoot_needs_votes s i :
  reachable s →
  (calculateVotesMerkleRoot i s = Revert msg_no_votes ↔
   Election.totalVotes (election_at s i) = 0) ∧
  (0 < Election.totalVotes (election_at s i) →
   calculateVotesMerkleRoot i s =
   Ok (keccak256 (encodePacked_hashes (getElectionVoteHashes i s)))).
Proof.
  intros (_ & _ & _ & Htot & _)%well_formed_reachable.
  unfold VotingSystemViews.calculateVotesMerkleRoot, getElectionVoteHashes, require.
  rewrite Htot. case_bool_decide as Hlen; cbn; split; try done; try lia.
  - split; [done|lia].
  - split; [lia|done].
Qed.

Lemma hashes_at_exec env c s s' i :
  exec env c s = Ok s' →
  hashes_at s' i = hashes_at s i ∨
  ∃ t ballot, c = CastVote i t ballot ∧
    hashes_at s' i = hashes_at s i ++ [voteHashOf env i t ballot].
Proof.
  intros Hexec.
  destruct c as [title st en root|j|j|j t|j t ballot]; cbn in Hexec.
  - apply fmap_Ok in Hexec as ([k s1] & Hc & ->).
    apply createElection_Ok in Hc as (_ & _ & _ & _ & -> & ->). by left.
  - apply openElection_Ok in Hexec as (_ & _ & _ & _ & ->). by left.
  - apply closeElection_Ok in Hexec as (_ & _ & _ & _ & ->). by left.
  - apply registerAnonymousToken_Ok in Hexec as (_ & _ & _ & ->). by left.
  - apply fmap_Ok in Hexec as ([h s1] & Hc & ->).
    apply castVote_Ok in Hc as (_ & _ & -> & _ & _ & ->).
    cbv [snd]. autorewrite with storage. case_decide; [|by left].
    subst j. right. eauto.
Qed.

(** The list of vote hashes of an election is append-only: after any
    sequence of transactions the earlier list is a prefix of the later one. *)
Theorem vote_hashes_append_only s s' i :
  steps s s' →
  getElectionVoteHashes i s `prefix_of` getElectionVoteHashes i s'.
Proof.
  unfold getElectionVoteHashes.
  induction 1 as [|s0 env c s1 s2 _ IH Hexec]; [done|].
  etrans; [exact IH|].
  destruct (hashes_at_exec _ _ _ _ i Hexec) as [->|(t & ballot & _ & ->)]; [done|].
  by apply prefix_app_r.
Qed.

(** What a vote leaves behind is permanent: through any sequence of
    transactions a consumed token stays consumed and a recorded vote keeps
    its record. *)
Theorem consumed_token_and_vote_are_permanent s s' i t h :
  steps s s' →
  (token_used s i t = true → token_used s' i t = true) ∧
  (EncryptedVote.voteHash (vote_at s i h) ≠ 0 → vote_at s' i h = vote_at s i h).
Proof.
  intros Hsteps. split.
  - by apply (token_used_steps keccak256).
  - by apply (vote_at_steps keccak256).
Qed.

Lemma nodup_exec env c s s' i :
  (∀ data, keccak256 data ≠ 0) →
  consistent s →
  exec env c s = Ok s' →
  NoDup (hashes_at s i) → NoDup (hashes_at s' i).
Proof.
  intros Hnz (_ & Hvote & Hlisted & _) Hexec Hnodup.
  destruct (hashes_at_exec _ _ _ _ i Hexec) as [->|(t & ballot & -> & ->)]; [done|].
  cbn in Hexec. apply fmap_Ok in Hexec as ([h s1] & Hc & _).
  apply castVote_Ok in Hc as (_ & _ & -> & Hfresh & _).
  apply NoDup_app. split_and!; [done| |apply NoDup_singleton].
  intros g Hg ->%list_elem_of_singleton.
  destruct (Hlisted _ _ Hg) as [v Hv].
  unfold vote_at in Hfresh. rewrite Hv in Hfresh. cbn in Hfresh.
  apply Hvote in Hv as (Heq & _). rewrite Heq in Hfresh. by eapply Hnz.
Qed.

(** If keccak256 never returns the zero word, the vote hashes listed for an
    election are pairwise distinct: the collision check rejects a digest that
    is already recorded. *)
Theorem vote_hashes_are_distinct s i :
  (∀ data, keccak256 data ≠ 0) →
  reachable s →
  NoDup (getElectionVoteHashes i s).
Proof.
  intros Hnz [env Hsteps]. unfold getElectionVoteHashes.
  assert (∀ s0, steps s0 s →
            (well_formed s0 ∧ consistent s0) ∧ NoDup (hashes_at s0 i) →
            (well_formed s ∧ consistent s) ∧ NoDup (hashes_at s i)) as Hind.
  { clear env Hsteps. induction 1 as [|s0 env' c s1 s2 Hsteps IH Hexec]; [done|].
    intros H0. destruct (IH H0) as [[Hwf Hcons] Hnodup]. split.
    - eapply consistent_steps; [|split; [exact Hwf|exact Hcons]].
      eapply steps_step; [apply steps_refl|exact Hexec].
    - by eapply nodup_exec. }
  apply (Hind _ Hsteps).
  split; [split; [apply well_formed_constructor|apply consistent_constructor]|].
  apply NoDup_nil_2.
Qed.

End WithKeccak.

(** ** The invariants on the sample transactions *)

Lemma sampleKeccak_nonzero data : Samples.sampleKeccak data ≠ 0.
Proof.
  unfold Samples.sampleKeccak.
  assert (∀ acc, 0 ≤ acc →
          0 ≤ fold_left (λ acc b, (acc * 257 + Z.of_N (Byte.to_N b)) mod (2 ^ 256 - 1))
                data acc) as H.
  { induction data as [|b data IH]; intros acc Hacc; [done|].
    cbn [fold_left]. apply IH. apply Z.mod_pos_bound. lia. }
  specialize (H 0 ltac:(lia)). lia.
Qed.

Lemma steps_deploy_voted_and_closed :
  steps Samples.sampleKeccak (constructor Samples.deploy) Samples.voted_and_closed.
Proof.
  eapply (run_steps _ (Samples.setup ++
    [ (Samples.authority_at 12, RegisterAnonymousToken 1 7);
      (Samples.voter_at 15, CastVote 1 7 Samples.ballot);
      (Samples.authority_at 21, CloseElection 1) ])).
  vm_compute. reflexivity.
Qed.

Lemma steps_opened_voted_and_closed :
  steps Samples.sampleKeccak Samples.opened Samples.voted_and_closed.
Proof. eapply run_steps, run_vote_and_close. Qed.

Lemma steps_voted_voted_and_closed :
  steps Samples.sampleKeccak Samples.voted Samples.voted_and_closed.
Proof.
  eapply (run_steps _ [ (Samples.authority_at 21, CloseElection 1) ]).
  vm_compute. reflexivity.
Qed.

Lemma reachable_voted : reachable Samples.sampleKeccak Samples.voted.
Proof.
  exists Samples.deploy.
  eapply (run_steps _ (Samples.setup ++
    [ (Samples.authority_at 12, RegisterAnonymousToken 1 7);
      (Samples.voter_at 15, CastVote 1 7 Samples.ballot) ])).
  vm_compute. reflexivity.
Qed.

Lemma admin_calls_revert_for_others_witness :
  msg_sender (Samples.voter_at 5) ≠ electionAuthority Samples.opened ∧
  closeElection (Samples.voter_at 5) 1 Samples.opened = Revert msg_only_authority.
Proof.
  assert (msg_sender (Samples.voter_at 5) ≠ electionAuthority Samples.opened) as H
    by (vm_compute; discriminate).
  split; [exact H|].
  apply (admin_calls_revert_for_others (Samples.voter_at 5) Samples.opened H).
Defined.

Lemma authority_is_the_deployer_witness :
  steps Samples.sampleKeccak (constructor Samples.deploy) Samples.voted_and_closed ∧
  electionAuthority Samples.voted_and_closed = 1.
Proof.
  split; [exact steps_deploy_voted_and_closed|].
  apply (authority_is_the_deployer Samples.sampleKeccak Samples.deploy
           Samples.voted_and_closed steps_deploy_voted_and_closed).
Defined.

Lemma electionExists_iff_issued_witness :
  reachable Samples.sampleKeccak Samples.voted_and_closed ∧
  (electionExists 0 Samples.voted_and_closed = Ok () ↔
   0 ≤ 0 ≤ electionCount Samples.voted_and_closed).
Proof.
  split; [exact reachable_voted_and_closed|].
  apply (electionExists_iff_issued Samples.sampleKeccak Samples.voted_and_closed 0
           reachable_voted_and_closed).
Defined.

Lemma election_schedule_is_immutable_witness :
  reachable Samples.sampleKeccak Samples.opened ∧
  is_Some (elections Samples.opened !! 1) ∧
  steps Samples.sampleKeccak Samples.opened Samples.voted_and_closed ∧
  Election.startTime (election_at Samples.voted_and_closed 1) =
    Election.startTime (election_at Samples.opened 1).
Proof.
  assert (is_Some (elections Samples.opened !! 1)) as Hstored
    by (vm_compute; eauto).
  split_and!; [exact reachable_opened|exact Hstored|
               exact steps_opened_voted_and_closed|].
  apply (election_schedule_is_immutable Samples.sampleKeccak Samples.opened
           Samples.voted_and_closed 1 reachable_opened Hstored
           steps_opened_voted_and_closed).
Defined.

Lemma castVote_needs_open_election_witness :
  reachable Samples.sampleKeccak Samples.voted_and_closed ∧
  phase (election_at Samples.voted_and_closed 1) ≠ Opened ∧
  castVote Samples.sampleKeccak (Samples.voter_at 16) 1 9 Samples.ballot
    Samples.voted_and_closed = Revert msg_not_active.
Proof.
  assert (phase (election_at Samples.voted_and_closed 1) ≠ Opened) as H
    by (vm_compute; discriminate).
  split_and!; [exact reachable_voted_and_closed|exact H|].
  apply (castVote_needs_open_election Samples.sampleKeccak Samples.voted_and_closed
           (Samples.voter_at 16) 1 9 Samples.ballot reachable_voted_and_closed H).
Defined.

Lemma steps_voted_and_closed_after_closing :
  steps Samples.sampleKeccak Samples.voted_and_closed Samples.after_closing.
Proof.
  eapply (run_steps _ [ (Samples.authority_at 22, CreateElection "F" 30 40 0) ]).
  vm_compute. reflexivity.
Qed.

Lemma closed_election_is_frozen_witness :
  reachable Samples.sampleKeccak Samples.voted_and_closed ∧
  phase (election_at Samples.voted_and_closed 1) = Closed ∧
  steps Samples.sampleKeccak Samples.voted_and_closed Samples.after_closing ∧
  phase (election_at Samples.after_closing 1) = Closed ∧
  getElectionVoteHashes 1 Samples.after_closing =
    getElectionVoteHashes 1 Samples.voted_and_closed ∧
  Election.totalVotes (election_at Samples.after_closing 1) =
    Election.totalVotes (election_at Samples.voted_and_closed 1).
Proof.
  assert (phase (election_at Samples.voted_and_closed 1) = Closed) as H
    by (vm_compute; reflexivity).
  split_and!;
    [exact reachable_voted_and_closed|exact H
    |exact steps_voted_and_closed_after_closing|..];
    apply (closed_election_is_frozen Samples.sampleKeccak Samples.voted_and_closed
             Samples.after_closing 1 reachable_voted_and_closed H
             steps_voted_and_closed_after_closing).
Defined.

Lemma verifyVoteInclusion_agrees_with_list_witness :
  reachable Samples.sampleKeccak Samples.voted_and_closed ∧
  (5 ∉ getElectionVoteHashes 1 Samples.voted_and_closed →
   verifyVoteInclusion 1 5 Samples.voted_and_closed = (false, 0, 0)).
Proof.
  split; [exact reachable_voted_and_closed|].
  apply (verifyVoteInclusion_agrees_with_list Samples.sampleKeccak
           Samples.voted_and_closed 1 5 reachable_voted_and_closed).
Defined.

Lemma recorded_vote_token_and_time_witness :
  reachable Samples.sampleKeccak Samples.voted ∧
  token_used Samples.voted 1 7 = true.
Proof.
  split; [exact reachable_voted|].
  pose (h := Samples.sampleKeccak (encodePacked_vote 1 7 Samples.ballot 15 15)).
  assert (EncryptedVote.voteHash (vote_at Samples.voted 1 h) ≠ 0) as Hnz
    by (vm_compute; discriminate).
  assert (EncryptedVote.anonymousTokenHash (vote_at Samples.voted 1 h) = 7) as Htok
    by (vm_compute; reflexivity).
  rewrite <- Htok.
  apply (recorded_vote_token_and_time Samples.sampleKeccak Samples.voted 1 h
           reachable_voted Hnz).
Defined.

Lemma one_token_per_vote_witness :
  reachable Samples.sampleKeccak Samples.voted ∧
  Z.of_nat (size (tokens_of Samples.voted 1)) =
    Election.totalVotes (election_at Samples.voted 1).
Proof.
  split; [exact reachable_voted|].
  apply (one_token_per_vote Samples.sampleKeccak Samples.voted 1 reachable_voted).
Defined.

Lemma calculateVotesMerkleRoot_needs_votes_witness :
  reachable Samples.sampleKeccak Samples.opened ∧
  (calculateVotesMerkleRoot Samples.sampleKeccak 1 Samples.opened = Revert msg_no_votes ↔
   Election.totalVotes (election_at Samples.opened 1) = 0).
Proof.
  split; [exact reachable_opened|].
  apply (calculateVotesMerkleRoot_needs_votes Samples.sampleKeccak Samples.opened 1
           reachable_opened).
Defined.

Lemma vote_hashes_append_only_witness :
  steps Samples.sampleKeccak Samples.opened Samples.voted_and_closed ∧
  getElectionVoteHashes 1 Samples.opened `prefix_of`
    getElectionVoteHashes 1 Samples.voted_and_closed.
Proof.
  split; [exact steps_opened_voted_and_closed|].
  apply (vote_hashes_append_only Samples.sampleKeccak Samples.opened
           Samples.voted_and_closed 1 steps_opened_voted_and_closed).
Defined.

Lemma consumed_token_and_vote_are_permanent_witness :
  steps Samples.sampleKeccak Samples.voted Samples.voted_and_closed ∧
  (token_used Samples.voted 1 7 = true →
   token_used Samples.voted_and_closed 1 7 = true).
Proof.
  split; [exact steps_voted_voted_and_closed|].
  apply (consumed_token_and_vote_are_permanent Samples.sampleKeccak Samples.voted
           Samples.voted_and_closed 1 7 0 steps_voted_voted_and_closed).
Defined.

Lemma vote_hashes_are_distinct_witness :
  reachable Samples.sampleKeccak Samples.voted_and_closed ∧
  NoDup (getElectionVoteHashes 1 Samples.voted_and_closed).
Proof.
  split; [exact reachable_voted_and_closed|].
  apply (vote_hashes_are_distinct Samples.sampleKeccak Samples.voted_and_closed 1
           sampleKeccak_nonzero reachable_voted_and_closed).
Defined.

(** The never-created election 0 passes [electionExists] on a fresh contract
    and can be opened by the authority. *)
Example election_zero_can_be_opened :
  ∃ s', openElection Samples.deploy 0 (constructor Samples.deploy) = Ok s' ∧
        phase (election_at s' 0) = Opened.
Proof. eexists. split; vm_compute; reflexivity. Qed.

End VotingSystemInvariants.

(** * Further properties of the Merkle tree of src/zkp-server.js *)
Module ZkpServerShape.
Import ZkpServer ZkpServerFacts.

Section WithPoseidon.
Variable poseidon : Z → Z → Z.

Local Abbreviation nextLevel := (nextLevel poseidon).
Local Abbreviation levelsFrom := (levelsFrom poseidon).
Local Abbreviation buildTree := (buildTree poseidon).
Local Abbreviation newMerkleTree := (newMerkleTree poseidon).
Local Abbreviation foldPath := (foldPath poseidon).

Lemma nextLevel_nonempty level : level ≠ [] → nextLevel level ≠ [].
Proof. by destruct level as [|a [|b rest]]. Qed.

Lemma levelsFrom_shape fuel : ∀ level tree,
  levelsFrom fuel level = Some tree →
  level ≠ [] →
  head tree = Some level ∧
  (∀ d l l', tree !! d = Some l → tree !! S d = Some l' →
     l' = nextLevel l ∧ length l' = ((length l + 1) / 2)%nat) ∧
  ∃ r, last tree = Some [r].
Proof.
  induction fuel as [|fuel IH]; intros level tree Ht Hne;
    rewrite levelsFrom_unfold in Ht; case_decide as Hlen.
  1,3: injection Ht as <-; split_and!; [done| |];
       [by intros [|d] l l' ? ?|];
       destruct level as [|r [|? ?]]; [done|by exists r|cbn in Hlen; lia].
  { done. }
  destruct (ZkpServer.levelsFrom poseidon fuel (nextLevel level)) as [upper|] eqn:Hup;
    [|done].
  injection Ht as <-.
  destruct (IH _ _ Hup (nextLevel_nonempty _ Hne)) as (Hhead & Hlevels & r & Hlast).
  split_and!; [done| |].
  - intros [|d] l l'; cbn.
    + intros [= <-] Hl'. destruct upper as [|u upper]; [done|].
      cbn in Hhead, Hl'. injection Hhead as ->. injection Hl' as <-.
      split; [done|apply nextLevel_length].
    + apply Hlevels.
  - exists r. destruct upper; [done|]. exact Hlast.
Qed.

(** The tree built over a non-empty leaf list starts with the leaves, each
    further level is the pairing of the one below and has half its nodes,
    rounded up, and the last level is a single node, the root. *)
Theorem buildTree_shape (leaves : list Z) :
  leaves ≠ [] →
  ∃ tree root,
    newMerkleTree leaves = Some tree ∧
    head tree = Some leaves ∧
    (∀ d l l', tree !! d = Some l → tree !! S d = Some l' →
       l' = nextLevel l ∧ length l' = ((length l + 1) / 2)%nat) ∧
    last tree = Some [root] ∧
    getRoot tree = Some root.
Proof.
  intros Hne. destruct (buildTree_total poseidon leaves) as [tree Ht].
  destruct (levelsFrom_shape _ _ _ Ht Hne) as (Hhead & Hlevels & r & Hlast).
  exists tree, r. split_and!; try done.
  - by destruct leaves.
  - unfold getRoot. by rewrite Hlast.
Qed.

Lemma half_lt n i : (i < n → i / 2 < (n + 1) / 2)%nat.
Proof.
  intros Hi.
  replace (n + 1)%nat with ((n - 1) + 1 * 2)%nat by lia.
  rewrite Nat.div_add by lia.
  pose proof (Nat.Div0.div_le_mono i (n - 1) 2 ltac:(lia)). lia.
Qed.

Lemma bitsValue_app_zeros bs k : bitsValue (bs ++ replicate k 0) = bitsValue bs.
Proof.
  induction bs as [|b bs IH]; cbn.
  - induction k as [|k IHk]; cbn; lia.
  - rewrite IH. done.
Qed.

Lemma proofLoop_bits fuel : ∀ level tree i es bs,
  levelsFrom fuel level = Some tree →
  (i < length level)%nat →
  proofLoop tree i = Some (es, bs) →
  Forall (λ b, b = 0 ∨ b = 1) bs ∧ bitsValue bs = Z.of_nat i.
Proof.
  induction fuel as [|fuel IH]; intros level tree i es bs Ht Hi Hloop;
    rewrite levelsFrom_unfold in Ht; case_decide as Hlen.
  1,3: injection Ht as <-; injection Hloop as <- <-; split; [done|cbn; lia].
  { done. }
  destruct (ZkpServer.levelsFrom poseidon fuel (nextLevel level)) as [upper|] eqn:Hup;
    [|done].
  injection Ht as <-.
  destruct (levelsFrom_head _ _ _ _ Hup) as [upper' ->].
  rewrite proofLoop_step in Hloop.
  destruct (match level !! _ with Some s => Some s | None => level !! i end)
    as [s|]; [|done].
  destruct (proofLoop (nextLevel level :: upper') (i / 2)%nat) as [[es' bs']|] eqn:Hl;
    [|done].
  cbn -[Nat.div Nat.modulo] in Hloop. injection Hloop as <- <-.
  assert (i / 2 < length (nextLevel level))%nat as Hlt.
  { rewrite nextLevel_length. by apply half_lt. }
  destruct (IH _ _ _ _ _ Hup Hlt Hl) as [Hbits Hval].
  pose proof (Nat.div_mod_eq i 2) as Hdm.
  pose proof (Nat.mod_upper_bound i 2 ltac:(lia)) as Hmod.
  split.
  - constructor; [lia|done].
  - change (Z.of_nat (1 - (Nat.divmod i 1 0 1).2)) with (Z.of_nat (i mod 2)).
    cbn [bitsValue]. rewrite Hval. lia.
Qed.

(** Within the capacity of [2^20] leaves, the path of a valid index has
    exactly 20 elements and 20 bits, and every entry from the height of the
    tree on is the padding pair (0, 0). *)
Theorem getProof_shape (leaves : list Z) (i : nat) (x : Z) :
  leaves !! i = Some x →
  (length leaves ≤ 2 ^ TREE_DEPTH)%nat →
  ∃ tree p,
    newMerkleTree leaves = Some tree ∧
    getProof tree i = Some p ∧
    length (pathElements p) = 20%nat ∧
    length (pathIndices p) = 20%nat ∧
    ∀ k, (length tree - 1 ≤ k < 20)%nat →
         pathElements p !! k = Some 0 ∧ pathIndices p !! k = Some 0.
Proof.
  intros Hi Hcap. destruct (buildTree_total poseidon leaves) as [tree Ht].
  destruct (proofLoop_fold _ _ _ _ _ _ Ht Hi) as (es & bs & root & Hloop & Hlen & _).
  destruct (proofLoop_length _ _ _ _ Hloop) as [Hes Hbs].
  pose proof (levelsFrom_height _ _ _ _ TREE_DEPTH Ht Hcap) as Hheight.
  exists tree, (padProof es bs). split_and!.
  - by destruct leaves.
  - unfold getProof. by rewrite Hloop.
  - unfold padProof, TREE_DEPTH in *. cbn [pathElements].
    rewrite length_app, length_replicate. lia.
  - unfold padProof, TREE_DEPTH in *. cbn [pathIndices].
    rewrite length_app, length_replicate. lia.
  - intros k Hk. unfold padProof, TREE_DEPTH in *. cbn [pathElements pathIndices].
    rewrite !lookup_app_r by lia.
    split; apply lookup_replicate_2; lia.
Qed.

(** The bits of a path spell the index: each of them is 0 or 1, and read as
    a binary number, least significant bit first, they give the leaf index. *)
Theorem getProof_bits_spell_index (leaves : list Z) (i : nat) (x : Z) :
  leaves !! i = Some x →
  ∃ tree p,
    newMerkleTree leaves = Some tree ∧
    getProof tree i = Some p ∧
    Forall (λ b, b = 0 ∨ b = 1) (pathIndices p) ∧
    bitsValue (pathIndices p) = Z.of_nat i.
Proof.
  intros Hi. destruct (buildTree_total poseidon leaves) as [tree Ht].
  destruct (proofLoop_fold _ _ _ _ _ _ Ht Hi) as (es & bs & root & Hloop & Hlen & _).
  destruct (proofLoop_bits _ _ _ _ _ _ Ht (lookup_lt_Some _ _ _ Hi) Hloop)
    as [Hbits Hval].
  exists tree, (padProof es bs). split_and!.
  - by destruct leaves.
  - unfold getProof. by rewrite Hloop.
  - unfold padProof. cbn [pathIndices]. apply Forall_app. split; [done|].
    apply Forall_replicate. by left.
  - unfold padProof. cbn [pathIndices]. by rewrite bitsValue_app_zeros.
Qed.

(** [getProof] checks no bounds.  On a tree of at least two leaves an index
    past the end makes it throw, except the index just past the end of an
    odd number of leaves, which is handled next. *)
Theorem getProof_out_of_range (leaves : list Z) (index : nat) :
  (2 ≤ length leaves)%nat →
  (length leaves ≤ index)%nat →
  (index ≠ length leaves ∨ index mod 2 = 0)%nat →
  ∃ tree, newMerkleTree leaves = Some tree ∧ getProof tree index = None.
Proof.
  intros Hlen Hout Hodd. destruct (buildTree_total poseidon leaves) as [tree Ht].
  exists tree. split; [by destruct leaves; [cbn in Hlen; lia|]|].
  unfold ZkpServer.buildTree in Ht. rewrite levelsFrom_unfold in Ht.
  rewrite decide_False in Ht by lia.
  destruct (length leaves) as [|fuel] eqn:Hfuel; [lia|].
  destruct (ZkpServer.levelsFrom poseidon fuel (nextLevel leaves)) as [upper|] eqn:Hup;
    [|done].
  injection Ht as <-. destruct (levelsFrom_head _ _ _ _ Hup) as [upper' ->].
  unfold getProof. rewrite proofLoop_step.
  pose proof (Nat.mod_upper_bound index 2 ltac:(lia)) as Hmod.
  rewrite (lookup_ge_None_2 leaves index) by lia.
  case_decide as Hpar.
  - by rewrite (lookup_ge_None_2 leaves (index + 1)) by lia.
  - by rewrite (lookup_ge_None_2 leaves (index - 1)) by lia.
Qed.

(** For an odd number [n > 1] of leaves, [getProof(n)] does not fail: the
    index one past the end gets the path of the last leaf, with the same
    elements and only the first bit turned to 1. *)
Theorem getProof_index_past_odd_end (leaves : list Z) :
  (1 < length leaves)%nat →
  (length leaves mod 2 = 1)%nat →
  ∃ tree p p',
    newMerkleTree leaves = Some tree ∧
    getProof tree (length leaves - 1) = Some p ∧
    getProof tree (length leaves) = Some p' ∧
    pathElements p' = pathElements p ∧
    pathIndices p' = 1 :: tail (pathIndices p).
Proof.
  intros Hlen Hodd. destruct (buildTree_total poseidon leaves) as [tree Ht].
  destruct (lookup_lt_is_Some_2 leaves (length leaves - 1) ltac:(lia)) as [x Hx].
  destruct (proofLoop_fold _ _ _ _ _ _ Ht Hx) as (es & bs & root & Hloop & _).
  exists tree.
  assert (newMerkleTree leaves = Some tree) as Hnew
    by (by destruct leaves; [cbn in Hlen; lia|]).
  unfold ZkpServer.buildTree in Ht. rewrite levelsFrom_unfold in Ht.
  rewrite decide_False in Ht by lia.
  destruct (length leaves) as [|fuel] eqn:Hfuel; [lia|].
  destruct (ZkpServer.levelsFrom poseidon fuel (nextLevel leaves)) as [upper|] eqn:Hup;
    [|done].
  injection Ht as <-. destruct (levelsFrom_head _ _ _ _ Hup) as [upper' ->].
  assert ((S fuel - 1) mod 2 = 0)%nat as Heven.
  { pose proof (Nat.div_mod_eq (S fuel) 2).
    pose proof (Nat.div_mod_eq (S fuel - 1) 2).
    pose proof (Nat.mod_upper_bound (S fuel - 1) 2 ltac:(lia)). lia. }
  assert ((S fuel - 1) / 2 = S fuel / 2)%nat as Hhalf.
  { pose proof (Nat.div_mod_eq (S fuel) 2).
    pose proof (Nat.div_mod_eq (S fuel - 1) 2). lia. }
  rewrite proofLoop_step in Hloop. rewrite Heven in Hloop.
  rewrite decide_True in Hloop by done.
  rewrite (lookup_ge_None_2 leaves (S fuel - 1 + 1)), Hx in Hloop by lia.
  destruct (proofLoop (nextLevel leaves :: upper') ((S fuel - 1) / 2)%nat)
    as [[es' bs']|] eqn:Hl; [|done].
  cbn in Hloop. injection Hloop as <- <-.
  exists (padProof (x :: es') (0 :: bs')), (padProof (x :: es') (1 :: bs')).
  split_and!; [done| | |done|done].
  - unfold getProof. rewrite proofLoop_step, Heven, decide_True by done.
    rewrite (lookup_ge_None_2 leaves (S fuel - 1 + 1)), Hx, Hl by lia. done.
  - unfold getProof. rewrite proofLoop_step, Hodd, decide_False by done.
    rewrite Hx, <- Hhalf, Hl. done.
Qed.

(** A single leaf is its own root: the tree has one level, nothing is
    hashed, and [getProof] returns twenty padding pairs for any index. *)
Theorem single_leaf_tree (a : Z) (index : nat) :
  newMerkleTree [a] = Some [[a]] ∧
  getRoot [[a]] = Some a ∧
  getProof [[a]] index = Some (mkProof (replicate 20 0) (replicate 20 0)).
Proof. done. Qed.

(** Beyond the capacity the path is not cut to the circuit's depth: with
    more than [2^20] leaves every path has more than 20 entries. *)
Theorem getProof_over_capacity (leaves : list Z) (i : nat) (x : Z) :
  leaves !! i = Some x →
  (2 ^ TREE_DEPTH < length leaves)%nat →
  ∃ tree p,
    newMerkleTree leaves = Some tree ∧
    getProof tree i = Some p ∧
    (TREE_DEPTH < length (pathElements p))%nat ∧
    length (pathIndices p) = length (pathElements p).
Proof.
  intros Hi Hcap. destruct (buildTree_total poseidon leaves) as [tree Ht].
  destruct (proofLoop_fold _ _ _ _ _ _ Ht Hi) as (es & bs & root & Hloop & Hlen & _).
  destruct (proofLoop_length _ _ _ _ Hloop) as [Hes Hbs].
  pose proof (levelsFrom_height_lower _ _ _ _ TREE_DEPTH Ht Hcap) as Hheight.
  exists tree, (padProof es bs). split_and!.
  - by destruct leaves.
  - unfold getProof. by rewrite Hloop.
  - unfold padProof. cbn [pathElements]. rewrite length_app, length_replicate. lia.
  - unfold padProof. cbn [pathElements pathIndices].
    rewrite !length_app, !length_replicate. lia.
Qed.

End WithPoseidon.

Lemma buildTree_shape_witness :
  [1; 2; 3] ≠ [] ∧
  ∃ tree root,
    newMerkleTree Samples.samplePoseidon [1; 2; 3] = Some tree ∧
    head tree = Some [1; 2; 3] ∧
    (∀ d l l', tree !! d = Some l → tree !! S d = Some l' →
       l' = nextLevel Samples.samplePoseidon l ∧
       length l' = ((length l + 1) / 2)%nat) ∧
    last tree = Some [root] ∧
    getRoot tree = Some root.
Proof.
  assert (([1; 2; 3] : list Z) ≠ []) as H by done.
  split; [exact H|].
  apply (buildTree_shape Samples.samplePoseidon [1; 2; 3] H).
Defined.

Lemma three_leaves_within_capacity : (length [1; 2; 3] ≤ 2 ^ TREE_DEPTH)%nat.
Proof.
  transitivity (2 ^ 2)%nat; [cbn; lia|].
  apply Nat.pow_le_mono_r; unfold TREE_DEPTH; lia.
Qed.

Lemma getProof_shape_witness :
  [1; 2; 3] !! 2%nat = Some 3 ∧
  ∃ tree p,
    newMerkleTree Samples.samplePoseidon [1; 2; 3] = Some tree ∧
    getProof tree 2 = Some p ∧
    length (pathElements p) = 20%nat ∧
    length (pathIndices p) = 20%nat ∧
    ∀ k, (length tree - 1 ≤ k < 20)%nat →
         pathElements p !! k = Some 0 ∧ pathIndices p !! k = Some 0.
Proof.
  split; [reflexivity|].
  apply (getProof_shape Samples.samplePoseidon [1; 2; 3] 2 3 eq_refl
           three_leaves_within_capacity).
Defined.

Lemma getProof_bits_spell_index_witness :
  [1; 2; 3] !! 2%nat = Some 3 ∧
  ∃ tree p,
    newMerkleTree Samples.samplePoseidon [1; 2; 3] = Some tree ∧
    getProof tree 2 = Some p ∧
    Forall (λ b, b = 0 ∨ b = 1) (pathIndices p) ∧
    bitsValue (pathIndices p) = 2.
Proof.
  split; [reflexivity|].
  apply (getProof_bits_spell_index Samples.samplePoseidon [1; 2; 3] 2 3 eq_refl).
Defined.

Lemma getProof_out_of_range_witness :
  ∃ tree, newMerkleTree Samples.samplePoseidon [1; 2; 3] = Some tree ∧
          getProof tree 4 = None.
Proof.
  apply (getProof_out_of_range Samples.samplePoseidon [1; 2; 3] 4).
  - cbn. lia.
  - cbn. lia.
  - left. cbn. lia.
Defined.

Lemma getProof_index_past_odd_end_witness :
  ∃ tree p p',
    newMerkleTree Samples.samplePoseidon [1; 2; 3] = Some tree ∧
    getProof tree 2 = Some p ∧
    getProof tree 3 = Some p' ∧
    pathElements p' = pathElements p ∧
    pathIndices p' = 1 :: tail (pathIndices p).
Proof.
  apply (getProof_index_past_odd_end Samples.samplePoseidon [1; 2; 3]).
  - cbn. lia.
  - reflexivity.
Defined.

Lemma getProof_over_capacity_witness :
  ∃ tree p,
    newMerkleTree Samples.samplePoseidon (replicate (2 ^ TREE_DEPTH + 1) 1) = Some tree ∧
    getProof tree 0 = Some p ∧
    (TREE_DEPTH < length (pathElements p))%nat ∧
    length (pathIndices p) = length (pathElements p).
Proof.
  apply (getProof_over_capacity Samples.samplePoseidon
           (replicate (2 ^ TREE_DEPTH + 1) 1) 0 1).
  - apply lookup_replicate_2. generalize (2 ^ TREE_DEPTH)%nat. intros n. lia.
  - rewrite length_replicate. generalize (2 ^ TREE_DEPTH)%nat. intros n. lia.
Defined.

End ZkpServerShape.

(** * MerkleTreeDebug (src/unnamed/part_002) *)
Module MerkleTreeDebugFacts.
Import ZkpServer MerkleTreeDebug.

Section WithPoseidon.
Variable poseidon : Z → Z → Z.

Local Abbreviation levelsFrom := (levelsFrom poseidon).
Local Abbreviation nextLevel := (ZkpServer.nextLevel poseidon).

Lemma proofLoopDebug_step layer next upper i :
  proofLoopDebug (layer :: next :: upper) i =
  match (match layer !! (if decide ((i mod 2)%nat = 0%nat) then (i + 1)%nat
                         else (i - 1)%nat) with
         | Some s => Some s
         | None => layer !! i
         end) with
  | None => None
  | Some s =>
    match layer !! i with
    | None => None
    | Some _ =>
      '(es, bs) ← proofLoopDebug (next :: upper) (i / 2)%nat;
      Some (s :: es, Z.of_nat (i mod 2) :: bs)
    end
  end.
Proof. done. Qed.

(** From a node of [level] the access of the log line is defined at every
    level, so the loop of [getProofDebug] does what the loop of [getProof]
    does. *)
Lemma proofLoopDebug_valid_index fuel : ∀ level tree i x,
  levelsFrom fuel level = Some tree →
  level !! i = Some x →
  proofLoopDebug tree i = proofLoop tree i.
Proof.
  induction fuel as [|fuel IH]; intros level tree i x Ht Hi;
    rewrite ZkpServerFacts.levelsFrom_unfold in Ht; case_decide as Hlen.
  1,3: by injection Ht as <-.
  { done. }
  destruct (levelsFrom fuel (nextLevel level)) as [upper|] eqn:Hup; [|done].
  injection Ht as <-.
  destruct (ZkpServerFacts.levelsFrom_head _ _ _ _ Hup) as [upper' ->].
  rewrite proofLoopDebug_step, ZkpServerFacts.proofLoop_step, Hi.
  assert (∃ y, nextLevel level !! (i / 2)%nat = Some y) as [y Hy].
  { pose proof (Nat.div_mod_eq i 2) as Hdm.
    pose proof (Nat.mod_upper_bound i 2 ltac:(lia)) as Hmod.
    destruct (i mod 2)%nat as [|[|?]] eqn:Hm; [| |lia].
    - assert (i = 2 * (i / 2))%nat as Hik by lia. rewrite Hik in Hi.
      apply (ZkpServerFacts.nextLevel_lookup_even poseidon) in Hi. eauto.
    - assert (i = 2 * (i / 2) + 1)%nat as Hik by lia. rewrite Hik in Hi.
      apply (ZkpServerFacts.nextLevel_lookup_odd poseidon) in Hi as (z & _ & Hz). eauto. }
  by rewrite (IH _ _ _ _ Hup Hy).
Qed.

(** [MerkleTreeDebug]: for a leaf of the list the constructor and
    [getProofDebug] return, [actualLevels] is the number of levels below the
    root, and when no node of the tree is 0 [verifyProofManually] accepts the
    returned path. *)
Theorem verifyProofManually_accepts_getProofDebug (leaves : list Z) (i : nat) (x : Z) :
  leaves !! i = Some x →
  ∃ tree p actualLevels,
    newMerkleTreeDebug poseidon leaves = Some tree ∧
    getProofDebug tree i = Some (p, actualLevels) ∧
    actualLevels = (length tree - 1)%nat ∧
    (Forall (Forall (λ v, v ≠ 0)) tree →
     verifyProofManually poseidon tree x (pathElements p) (pathIndices p)
       = Some true).
Proof.
  intros Hi. destruct (ZkpServerFacts.buildTree_total poseidon leaves) as [tree Ht].
  unfold ZkpServer.buildTree in Ht.
  destruct (ZkpServerFacts.proofLoop_fold _ _ _ _ _ _ Ht Hi)
    as (es & bs & root & Hloop & Hlen & Hroot & Hfold).
  destruct (ZkpServerFacts.proofLoop_length _ _ _ _ Hloop) as [Hes Hbs].
  exists tree, (padProof es bs), (length es). split_and!.
  - unfold newMerkleTreeDebug, MerkleTreeDebug.buildTree.
    rewrite Ht. cbn. unfold MerkleTreeDebug.getRoot.
    unfold ZkpServer.getRoot in Hroot. by rewrite Hroot.
  - unfold getProofDebug.
    by rewrite (proofLoopDebug_valid_index _ _ _ _ _ Ht Hi), Hloop.
  - done.
  - intros Hnz. unfold verifyProofManually, MerkleTreeDebug.getRoot.
    unfold ZkpServer.getRoot in Hroot. rewrite Hroot. cbn.
    unfold padProof. cbn [pathElements pathIndices].
    rewrite ZkpServerFacts.foldPath_padding by done. f_equal.
    apply bool_decide_eq_true. by rewrite Hfold.
Qed.

(** Unlike [getProof], [getProofDebug] throws on every index past the end of
    a list of at least two leaves, the index just past an odd number of
    leaves included: its log line reads [layer[currentIndex].toString()]. *)
Theorem getProofDebug_rejects_index_past_end (leaves : list Z) (index : nat) :
  (2 ≤ length leaves)%nat →
  (length leaves ≤ index)%nat →
  ∃ tree, newMerkleTreeDebug poseidon leaves = Some tree ∧
          getProofDebug tree index = None.
Proof.
  intros Hlen Hout.
  destruct (ZkpServerFacts.buildTree_total poseidon leaves) as [tree Ht].
  unfold ZkpServer.buildTree in Ht.
  assert (leaves ≠ []) as Hne by (destruct leaves; [cbn in Hlen; lia|done]).
  destruct (ZkpServerShape.levelsFrom_shape _ _ _ _ Ht Hne) as (_ & _ & r & Hlast).
  exists tree. split.
  { unfold newMerkleTreeDebug, MerkleTreeDebug.buildTree.
    rewrite Ht. cbn. unfold MerkleTreeDebug.getRoot. by rewrite Hlast. }
  rewrite ZkpServerFacts.levelsFrom_unfold in Ht.
  rewrite decide_False in Ht by lia.
  destruct (length leaves) as [|fuel] eqn:Hfuel; [lia|].
  destruct (levelsFrom fuel (nextLevel leaves)) as [upper|] eqn:Hup; [|done].
  injection Ht as <-.
  destruct (ZkpServerFacts.levelsFrom_head _ _ _ _ Hup) as [upper' ->].
  unfold getProofDebug. rewrite proofLoopDebug_step.
  rewrite (lookup_ge_None_2 leaves index) by lia.
  by destruct (leaves !! _).
Qed.

End WithPoseidon.

Lemma verifyProofManually_accepts_getProofDebug_witness :
  [1; 2; 3] !! 2%nat = Some 3 ∧
  ∃ tree p actualLevels,
    newMerkleTreeDebug Samples.samplePoseidon [1; 2; 3] = Some tree ∧
    getProofDebug tree 2 = Some (p, actualLevels) ∧
    actualLevels = (length tree - 1)%nat ∧
    (Forall (Forall (λ v, v ≠ 0)) tree →
     verifyProofManually Samples.samplePoseidon tree 3
       (pathElements p) (pathIndices p) = Some true).
Proof.
  split; [reflexivity|].
  apply (verifyProofManually_accepts_getProofDebug Samples.samplePoseidon
           [1; 2; 3] 2 3 eq_refl).
Defined.

Lemma getProofDebug_rejects_index_past_end_witness :
  ∃ tree, newMerkleTreeDebug Samples.samplePoseidon [1; 2; 3] = Some tree ∧
          getProofDebug tree 3 = None.
Proof.
  apply (getProofDebug_rejects_index_past_end Samples.samplePoseidon [1; 2; 3] 3).
  - cbn. lia.
  - cbn. lia.
Defined.

(** On the same tree [getProof] of src/zkp-server.js answers index 3. *)
Example getProof_answers_index_past_odd_end :
  (ZkpServer.newMerkleTree Samples.samplePoseidon [1; 2; 3]
     ≫= λ tree, ZkpServer.getProof tree 3) ≠ None.
Proof. vm_compute. discriminate. Qed.

End MerkleTreeDebugFacts.

(** * Further properties of MerkleTreeHelper (merkle-helper.js) *)
Module MerkleHelperShape.
Import MerkleHelper MerkleHelperVerify.

Section WithPoseidon.
Variable hash : Z → Z → Z.

Local Abbreviation pairUp := (pairUp hash).
Local Abbreviation nextLevel := (nextLevel hash).
Local Abbreviation levels := (levels hash).
Local Abbreviation buildTree := (buildTree hash).
Local Abbreviation foldPath := (foldPath hash).

Lemma levels_length n level : length (levels n level) = S n.
Proof. revert level. induction n as [|n IH]; intros level; cbn; [done|]. by rewrite IH. Qed.

Lemma helper_nextLevel_nonempty level : nextLevel level ≠ [].
Proof. unfold MerkleHelper.nextLevel. by destruct (pairUp level). Qed.

Lemma levels_lookup_S n level d :
  levels (S n) level !! S d = levels n (nextLevel level) !! d.
Proof. done. Qed.

Lemma levels_upper_nonempty n : ∀ level d l,
  levels n level !! S d = Some l → l ≠ [].
Proof.
  induction n as [|n IH]; intros level d l; [done|].
  rewrite levels_lookup_S. destruct d as [|d].
  - destruct n; cbn; intros [= <-]; apply helper_nextLevel_nonempty.
  - apply IH.
Qed.

(** [buildTree] always returns the 21 levels 0 to 20, whatever the number of
    leaves, and [tree[20][0]] is always defined; over an empty list of voters
    the root is 0, not an error. *)
Theorem buildTree_always_21_levels (leaves : list Z) :
  length (buildTree leaves) = 21%nat ∧
  is_Some (root (buildTree leaves)) ∧
  root (buildTree []) = Some 0.
Proof.
  split_and!; [apply levels_length| |done].
  unfold root, MerkleHelper.buildTree, depth.
  destruct (lookup_lt_is_Some_2 (levels 20 leaves) 20) as [l Hl];
    [rewrite levels_length; lia|].
  rewrite Hl. cbn. apply levels_upper_nonempty in Hl. by destruct l; eauto.
Qed.

(** The pairing loop pushes the unpaired last node of an odd level as it is. *)
Lemma pairUp_unpaired_last level x :
  Nat.Even (length level) → pairUp (level ++ [x]) = pairUp level ++ [x].
Proof.
  induction level as [|y|y z l IH] using list_pair_ind; intros Hev; [done| |].
  - destruct Hev as [n Hn]. cbn in Hn. lia.
  - cbn. f_equal. apply IH. destruct Hev as [n Hn]. exists (n - 1)%nat.
    cbn in Hn. lia.
Qed.

(** One iteration of the level loop of [buildTree] carries the unpaired last
    node of an odd level up unchanged: over [level ++ [x]], [level] of even
    length, the next level is the pairs of [level] followed by [x] itself;
    when [level] is not empty that is the next level of [level] followed by
    [x]. *)
Theorem nextLevel_carries_unpaired_last level x :
  Nat.Even (length level) →
  nextLevel (level ++ [x]) = pairUp level ++ [x] ∧
  (level ≠ [] → nextLevel (level ++ [x]) = nextLevel level ++ [x]).
Proof.
  intros Hev.
  assert (nextLevel (level ++ [x]) = pairUp level ++ [x]) as Hnext.
  { unfold MerkleHelper.nextLevel. rewrite pairUp_unpaired_last by done.
    by destruct (pairUp level). }
  split; [done|]. intros Hne. rewrite Hnext. f_equal.
  unfold MerkleHelper.nextLevel.
  destruct level as [|a [|b rest]]; [done| |done].
  destruct Hev as [n Hn]. cbn in Hn. lia.
Qed.

Lemma pairUp_lookup_even level k x :
  Forall (λ v, v ≠ 0) level →
  level !! (2 * k)%nat = Some x →
  pairUp level !! k =
  Some (match level !! (2 * k + 1)%nat with
        | Some r => hash x r
        | None => x
        end).
Proof.
  revert level. induction k as [|k IH]; intros [|a [|b rest]] Hnz H; try done.
  - injection H as ->. cbn. rewrite decide_False; [done|].
    by apply Forall_cons in Hnz as [_ [? _]%Forall_cons].
  - replace (2 * S k)%nat with (S (S (2 * k))) in H by lia.
    replace (2 * S k + 1)%nat with (S (S (2 * k + 1))) by lia.
    cbn in H |- *. apply IH; [|done].
    by apply Forall_cons in Hnz as [_ [_ ?]%Forall_cons].
Qed.

Lemma pairUp_lookup_odd level k x :
  Forall (λ v, v ≠ 0) level →
  level !! (2 * k + 1)%nat = Some x →
  ∃ y, level !! (2 * k)%nat = Some y ∧ pairUp level !! k = Some (hash y x).
Proof.
  revert level. induction k as [|k IH]; intros [|a [|b rest]] Hnz H; try done.
  - injection H as ->. exists a. split; [done|]. cbn. rewrite decide_False; [done|].
    by apply Forall_cons in Hnz as [_ [? _]%Forall_cons].
  - replace (2 * S k + 1)%nat with (S (S (2 * k + 1))) in H by lia.
    replace (2 * S k)%nat with (S (S (2 * k))) by lia.
    cbn in H |- *. apply IH; [|done].
    by apply Forall_cons in Hnz as [_ [_ ?]%Forall_cons].
Qed.

Lemma nextLevel_pairUp level : level ≠ [] → nextLevel level = pairUp level.
Proof. unfold MerkleHelper.nextLevel. by destruct level as [|a [|b rest]]. Qed.

Lemma pathLoop_step n layer upper i :
  pathLoop (S n) (layer :: upper) i =
  '(es, bs) ← pathLoop n upper (i / 2)%nat;
  Some ((if bool_decide (i mod 2 = 0)%nat then default 0 (layer !! (i + 1)%nat)
         else match i with O => 0 | S j => default 0 (layer !! j) end) :: es,
        (if bool_decide (i mod 2 = 0)%nat then 0 else 1) :: bs).
Proof. done. Qed.

(** Climbing [n] levels from node [i] of [level]: the path loop succeeds and
    the fold of what it records is node [i / 2^n] of level [n]. *)
Lemma pathLoop_fold n : ∀ level i x,
  level !! i = Some x →
  Forall (Forall (λ v, v ≠ 0)) (levels n level) →
  ∃ es bs,
    pathLoop n (levels n level) i = Some (es, bs) ∧
    levels n level !! n ≫= (.!! (i / 2 ^ n)%nat) = Some (foldPath x es bs).
Proof.
  induction n as [|n IH]; intros level i x Hi Hnz.
  - exists [], []. split; [done|].
    change (2 ^ 0)%nat with 1%nat. rewrite Nat.div_1_r. exact Hi.
  - change (levels (S n) level) with (level :: levels n (nextLevel level)) in *.
    apply Forall_cons in Hnz as [Hlevel Hupper].
    assert (level ≠ []) as Hne by (by destruct level).
    pose proof (Nat.div_mod_eq i 2) as Hdm.
    pose proof (Nat.mod_upper_bound i 2 ltac:(lia)) as Hmod.
    rewrite pathLoop_step.
    assert (Hdiv : (i / 2 ^ S n = i / 2 / 2 ^ n)%nat).
    { rewrite Nat.pow_succ_r', Nat.Div0.div_div. done. }
    destruct (i mod 2)%nat as [|[|?]] eqn:Hm; [| |lia].
    + assert (i = 2 * (i / 2))%nat as Hik by lia.
      pose proof Hi as Hpar. rewrite Hik in Hpar.
      apply pairUp_lookup_even in Hpar; [|done]. rewrite <- nextLevel_pairUp in Hpar by done.
      replace (2 * (i / 2) + 1)%nat with (i + 1)%nat in Hpar by lia.
      destruct (IH _ _ _ Hpar Hupper) as (es & bs & Hloop & Hnode).
      rewrite Hloop.
      change ((level :: levels n (nextLevel level)) !! S n)
        with (levels n (nextLevel level) !! n).
      eexists _, _. split; [reflexivity|].
      rewrite Hdiv, Hnode. f_equal.
      rewrite bool_decide_eq_true_2 by done.
      destruct (level !! (i + 1)%nat) as [r|] eqn:Hr; cbn.
      * assert (r ≠ 0) by (eapply Forall_lookup_1 in Hlevel; eauto).
        rewrite decide_False by done. done.
      * done.
    + assert (i = 2 * (i / 2) + 1)%nat as Hik by lia.
      pose proof Hi as Hpar. rewrite Hik in Hpar.
      apply pairUp_lookup_odd in Hpar as (y & Hy & Hpar); [|done].
      rewrite <- nextLevel_pairUp in Hpar by done.
      destruct (IH _ _ _ Hpar Hupper) as (es & bs & Hloop & Hnode).
      rewrite Hloop.
      change ((level :: levels n (nextLevel level)) !! S n)
        with (levels n (nextLevel level) !! n).
      eexists _, _. split; [reflexivity|].
      rewrite Hdiv, Hnode. f_equal.
      rewrite bool_decide_eq_false_2 by done.
      destruct i as [|j]; [done|].
      replace (level !! j) with (Some y); [|rewrite <- Hy; f_equal; lia].
      cbn.
      assert (y ≠ 0) by (eapply Forall_lookup_1 in Hlevel; eauto).
      rewrite decide_False by done. done.
Qed.

Lemma pathLoop_total n : ∀ layers i,
  (n ≤ length layers)%nat → is_Some (pathLoop n layers i).
Proof.
  induction n as [|n IH]; intros layers i Hlen; [by eexists|].
  destruct layers as [|layer upper]; [cbn in Hlen; lia|].
  rewrite pathLoop_step.
  destruct (IH upper (i / 2)%nat) as [[es bs] Hl]; [cbn in Hlen; lia|].
  rewrite Hl. by eexists.
Qed.

Lemma pathLoop_bits n : ∀ layers i es bs,
  pathLoop n layers i = Some (es, bs) →
  Forall (λ b, b = 0 ∨ b = 1) bs ∧ bitsValue bs = Z.of_nat (i mod 2 ^ n).
Proof.
  induction n as [|n IH]; intros layers i es bs.
  - intros [= <- <-]. split; [done|]. cbn [bitsValue].
    change (2 ^ 0)%nat with 1%nat. rewrite Nat.mod_1_r. done.
  - destruct layers as [|layer upper]; [done|].
    rewrite pathLoop_step.
    destruct (pathLoop n upper (i / 2)%nat) as [[es' bs']|] eqn:Hl; [|done].
    intros [= <- <-]. destruct (IH _ _ _ _ Hl) as [Hbits Hval].
    pose proof (Nat.mod_upper_bound i 2 ltac:(lia)) as Hmod.
    change (1 - (Nat.divmod i 1 0 1).2)%nat with (i mod 2)%nat.
    split.
    + constructor; [case_bool_decide; auto|done].
    + cbn [bitsValue]. rewrite Hval, Nat.pow_succ_r', Nat.Div0.mod_mul_r.
      case_bool_decide; lia.
Qed.

(** [getMerklePath] guards the index against the leaf count only: an index
    at or past the number of leaves is rejected; for a valid index it always
    returns 20 elements and 20 bits, each bit 0 or 1, the bits spelling the
    index modulo [2^20]. *)
Theorem getMerklePath_bounds (leaves : list Z) (i : nat) :
  ((length leaves ≤ i)%nat → getMerklePath leaves (buildTree leaves) i = None) ∧
  ((i < length leaves)%nat →
   ∃ es bs,
     getMerklePath leaves (buildTree leaves) i = Some (es, bs) ∧
     length es = 20%nat ∧ length bs = 20%nat ∧
     Forall (λ b, b = 0 ∨ b = 1) bs ∧
     bitsValue bs = Z.of_nat (i mod 2 ^ 20)).
Proof.
  unfold getMerklePath. split; intros Hi.
  - by rewrite decide_True.
  - rewrite decide_False by lia.
    destruct (pathLoop_total 20 (buildTree leaves) i) as [[es bs] Hl].
    { unfold MerkleHelper.buildTree, depth. rewrite levels_length. lia. }
    exists es, bs. destruct (MerkleHelperFacts.pathLoop_length _ _ _ _ _ Hl).
    destruct (pathLoop_bits _ _ _ _ _ Hl). done.
Qed.

(** Round trip of the helper: for a valid index below [2^20], when no node of
    the tree is 0, [verifyPath] accepts the path of [getMerklePath] against
    the root of the tree. *)
Theorem verifyPath_accepts_getMerklePath (leaves : list Z) (i : nat) (x : Z) :
  leaves !! i = Some x →
  (i < 2 ^ 20)%nat →
  Forall (Forall (λ v, v ≠ 0)) (buildTree leaves) →
  ∃ es bs r,
    getMerklePath leaves (buildTree leaves) i = Some (es, bs) ∧
    root (buildTree leaves) = Some r ∧
    verifyPath hash x es bs r = true.
Proof.
  intros Hi Hcap Hnz.
  destruct (pathLoop_fold 20 leaves i x Hi Hnz) as (es & bs & Hloop & Hnode).
  rewrite (Nat.div_small i) in Hnode by done.
  exists es, bs, (foldPath x es bs). split_and!.
  - unfold getMerklePath. rewrite decide_False; [done|].
    apply lookup_lt_Some in Hi. lia.
  - unfold root, MerkleHelper.buildTree, depth.
    destruct (levels 20 leaves !! 20%nat) as [l|]; [|done].
    cbn in Hnode |- *. by rewrite head_lookup.
  - unfold verifyPath. by apply bool_decide_eq_true.
Qed.

Lemma levels_single n r : levels n [r] !! n = Some [r].
Proof. induction n as [|n IH]; [done|]. exact IH. Qed.

(** A single voter is its own root: the node is carried through the twenty
    levels without being hashed. *)
Lemma single_leaf_root a : root (buildTree [a]) = Some a.
Proof. unfold root, MerkleHelper.buildTree, depth. by rewrite levels_single. Qed.

Lemma pairUp_eq_server level :
  Nat.Even (length level) →
  Forall (λ v, v ≠ 0) level →
  pairUp level = ZkpServer.nextLevel hash level.
Proof.
  induction level as [|y|y z l IH] using list_pair_ind; intros Hev Hnz; [done| |].
  - destruct Hev as [n Hn]. cbn in Hn. lia.
  - apply Forall_cons in Hnz as [_ [Hz Hl]%Forall_cons].
    cbn. rewrite decide_False by done. f_equal. apply IH; [|done].
    destruct Hev as [n Hn]. exists (n - 1)%nat. cbn in Hn. lia.
Qed.

Lemma full_tree_roots_agree k : ∀ n level fuel tree,
  (k ≤ n)%nat →
  length level = (2 ^ k)%nat →
  ZkpServer.levelsFrom hash fuel level = Some tree →
  Forall (Forall (λ v, v ≠ 0)) tree →
  levels n level !! n ≫= head = ZkpServer.getRoot tree.
Proof.
  induction k as [|k IH]; intros n level fuel tree Hkn Hlen Ht Hnz;
    rewrite ZkpServerFacts.levelsFrom_unfold in Ht.
  - rewrite decide_True in Ht by (rewrite Hlen; cbn; lia).
    injection Ht as <-. destruct level as [|r [|? ?]]; try done.
    by rewrite levels_single.
  - assert (2 ^ S k = 2 * 2 ^ k)%nat as Hpow by apply Nat.pow_succ_r'.
    pose proof (Nat.pow_nonzero 2 k ltac:(lia)) as Hpos.
    rewrite decide_False in Ht by lia.
    destruct fuel as [|fuel]; [done|].
    destruct (ZkpServer.levelsFrom hash fuel (ZkpServer.nextLevel hash level))
      as [upper|] eqn:Hup; [|done].
    injection Ht as <-.
    apply Forall_cons in Hnz as [Hlevel Hupper].
    destruct (ZkpServerFacts.levelsFrom_head _ _ _ _ Hup) as [upper' ->].
    rewrite ZkpServerFacts.getRoot_cons by done.
    destruct n as [|n]; [lia|].
    rewrite levels_lookup_S.
    assert (level ≠ []) as Hne by (destruct level; [cbn in Hlen; lia|done]).
    rewrite nextLevel_pairUp by done.
    rewrite pairUp_eq_server; [|exists (2 ^ k)%nat; lia|done].
    eapply IH; [lia| |exact Hup|done].
    rewrite ZkpServerFacts.nextLevel_length, Hlen, Hpow.
    replace (2 * 2 ^ k + 1)%nat with (1 + 2 ^ k * 2)%nat by lia.
    rewrite Nat.div_add by lia. done.
Qed.

(** The two builders agree on full trees: for [2^k] leaves ([k <= 20]), when
    no node of the server's tree is 0, the helper's root is the root of the
    [MerkleTree] of src/zkp-server.js. *)
Theorem roots_agree_on_full_trees (k : nat) (leaves : list Z) :
  (k ≤ 20)%nat →
  length leaves = (2 ^ k)%nat →
  ∃ tree r,
    ZkpServer.newMerkleTree hash leaves = Some tree ∧
    ZkpServer.getRoot tree = Some r ∧
    (Forall (Forall (λ v, v ≠ 0)) tree → root (buildTree leaves) = Some r).
Proof.
  intros Hk Hlen.
  assert (leaves ≠ []) as Hne.
  { pose proof (Nat.pow_nonzero 2 k ltac:(lia)). destruct leaves; [cbn in Hlen; lia|done]. }
  destruct (ZkpServerFacts.buildTree_total hash leaves) as [tree Ht].
  destruct (ZkpServerShape.levelsFrom_shape hash _ _ _ Ht Hne) as (_ & _ & r & Hlast).
  assert (ZkpServer.getRoot tree = Some r) as Hroot
    by (unfold ZkpServer.getRoot; by rewrite Hlast).
  exists tree, r. split_and!; [by destruct leaves|done|].
  intros Hnz. rewrite <- Hroot.
  unfold root, MerkleHelper.buildTree, depth.
  by eapply (full_tree_roots_agree k 20 leaves).
Qed.

End WithPoseidon.

Lemma nextLevel_carries_unpaired_last_witness :
  Nat.Even (length [1; 2]) ∧
  nextLevel Samples.samplePoseidon ([1; 2] ++ [3]) =
    pairUp Samples.samplePoseidon [1; 2] ++ [3] ∧
  ([1; 2] ≠ [] →
   nextLevel Samples.samplePoseidon ([1; 2] ++ [3]) =
     nextLevel Samples.samplePoseidon [1; 2] ++ [3]).
Proof.
  assert (Nat.Even (length [1; 2])) as H by (exists 1%nat; reflexivity).
  split; [exact H|].
  apply (nextLevel_carries_unpaired_last Samples.samplePoseidon [1; 2] 3 H).
Defined.

(** The empty level is the exception the second part leaves out: the next
    level of [[x]] is [[x]], the next level of [[]] is [[0]]. *)
Example nextLevel_single_and_empty :
  nextLevel Samples.samplePoseidon [5] = [5] ∧
  nextLevel Samples.samplePoseidon [] = [0].
Proof. split; reflexivity. Qed.

Lemma two_below_capacity : (2 < 2 ^ 20)%nat.
Proof.
  apply Nat.lt_le_trans with (2 ^ 2)%nat; [cbn; lia|].
  apply Nat.pow_le_mono_r; lia.
Qed.

Lemma three_leaves_nonzero :
  Forall (Forall (λ v, v ≠ 0)) (buildTree Samples.samplePoseidon [1; 2; 3]).
Proof. vm_compute. repeat (constructor; try done). Qed.

Lemma verifyPath_accepts_getMerklePath_witness :
  [1; 2; 3] !! 2%nat = Some 3 ∧
  ∃ es bs r,
    getMerklePath [1; 2; 3] (buildTree Samples.samplePoseidon [1; 2; 3]) 2
      = Some (es, bs) ∧
    root (buildTree Samples.samplePoseidon [1; 2; 3]) = Some r ∧
    verifyPath Samples.samplePoseidon 3 es bs r = true.
Proof.
  split; [reflexivity|].
  apply (verifyPath_accepts_getMerklePath Samples.samplePoseidon [1; 2; 3] 2 3
           eq_refl two_below_capacity three_leaves_nonzero).
Defined.

Lemma getMerklePath_bounds_witness :
  (2 < length [1; 2; 3])%nat ∧
  ∃ es bs,
    getMerklePath [1; 2; 3] (buildTree Samples.samplePoseidon [1; 2; 3]) 2
      = Some (es, bs) ∧
    length es = 20%nat ∧ length bs = 20%nat ∧
    Forall (λ b, b = 0 ∨ b = 1) bs ∧
    bitsValue bs = Z.of_nat (2 mod 2 ^ 20).
Proof.
  assert (2 < length [1; 2; 3])%nat as H by (cbn; lia).
  split; [exact H|].
  exact (proj2 (getMerklePath_bounds Samples.samplePoseidon [1; 2; 3] 2) H).
Defined.

Lemma roots_agree_on_full_trees_witness :
  length [1; 2; 3; 4] = (2 ^ 2)%nat ∧
  ∃ tree r,
    ZkpServer.newMerkleTree Samples.samplePoseidon [1; 2; 3; 4] = Some tree ∧
    ZkpServer.getRoot tree = Some r ∧
    (Forall (Forall (λ v, v ≠ 0)) tree →
     root (buildTree Samples.samplePoseidon [1; 2; 3; 4]) = Some r).
Proof.
  split; [reflexivity|].
  apply (roots_agree_on_full_trees Samples.samplePoseidon 2 [1; 2; 3; 4]).
  - lia.
  - reflexivity.
Defined.

(** On three leaves the two builders disagree: the helper carries the third
    leaf, the server hashes it with itself. *)
Example roots_differ_on_three_leaves :
  root (buildTree Samples.samplePoseidon [1; 2; 3]) ≠
  (ZkpServer.newMerkleTree Samples.samplePoseidon [1; 2; 3] ≫= ZkpServer.getRoot).
Proof. vm_compute. discriminate. Qed.

End MerkleHelperShape.

(** * The eligibility circuit against the JavaScript folds *)
Module EligibilityCircuitFacts.
Import EligibilityCircuit.

Section WithField.
Variable p : Z.
Variable Poseidon2 : Z → Z → Z.
Variable Poseidon3 : Z → Z → Z → Z.
Hypothesis Poseidon2_range : ∀ a b, 0 ≤ Poseidon2 a b < p.

Local Abbreviation levelHashes := (levelHashes p Poseidon2).
Local Abbreviation in_field := (λ v : Z, 0 ≤ v < p).

Lemma levelHashes_step_zero current es s ss :
  in_field current →
  levelHashes current (0 :: es) (s :: ss) = levelHashes current es ss.
Proof.
  intros Hc. cbn. unfold IsZero. rewrite Zmod_0_l, decide_True by done.
  f_equal. rewrite Z.mul_0_r, Z.add_0_r. by apply Z.mod_small.
Qed.

Lemma levelHashes_step_left current e es ss :
  in_field current → in_field e → e ≠ 0 →
  levelHashes current (e :: es) (0 :: ss) = levelHashes (Poseidon2 current e) es ss.
Proof.
  intros Hc He Hnz. cbn. unfold IsZero.
  rewrite (Z.mod_small e) by done. rewrite decide_False by done.
  rewrite !Z.mul_0_r, !Z.add_0_r.
  rewrite (Z.mod_small current), (Z.mod_small e) by done.
  f_equal. rewrite <- (Z.mod_small (Poseidon2 current e) p) at 2 by done.
  f_equal. lia.
Qed.

Lemma levelHashes_step_right current e es ss :
  in_field current → in_field e → e ≠ 0 →
  levelHashes current (e :: es) (1 :: ss) = levelHashes (Poseidon2 e current) es ss.
Proof.
  intros Hc He Hnz. cbn. unfold IsZero.
  rewrite (Z.mod_small e) by done. rewrite decide_False by done.
  replace (current + (e - current) * 1) with e by lia.
  replace (e + (current - e) * 1) with current by lia.
  rewrite (Z.mod_small current), (Z.mod_small e) by done.
  f_equal. rewrite <- (Z.mod_small (Poseidon2 e current) p) at 2 by done.
  f_equal. lia.
Qed.

(** On field elements and bits the circuit computes the same hash chain as
    the manual fold of src/zkp-server.js and as [verifyPath] of
    merkle-helper.js: a zero element is skipped, a non-zero one is hashed on
    the side given by its bit. *)
Theorem circuit_fold_is_the_javascript_fold (leaf : Z) (es bs : list Z) :
  in_field leaf →
  Forall in_field es →
  Forall (λ b, b = 0 ∨ b = 1) bs →
  length es = length bs →
  levelHashes leaf es bs = ZkpServer.foldPath Poseidon2 leaf es bs ∧
  levelHashes leaf es bs = MerkleHelperVerify.foldPath Poseidon2 leaf es bs.
Proof.
  intros Hleaf Hes. revert leaf bs Hleaf.
  induction Hes as [|e es He Hes IH]; intros leaf [|b bs] Hleaf Hbs Hlen;
    try done.
  apply Forall_cons in Hbs as [Hb Hbs]. injection Hlen as Hlen.
  destruct (decide (e = 0)) as [->|Hnz].
  - rewrite levelHashes_step_zero by done. cbn. by apply IH.
  - destruct Hb as [-> | ->].
    + rewrite levelHashes_step_left by done. cbn.
      repeat (case_decide || case_bool_decide); try done. by apply IH.
    + rewrite levelHashes_step_right by done. cbn.
      repeat (case_decide || case_bool_decide); try done. by apply IH.
Qed.

Lemma levelHashes_all_zero current n :
  levelHashes current (replicate n 0) (replicate n 0) =
  match n with O => current | S _ => current mod p end.
Proof.
  revert current. induction n as [|n IH]; intros current; [done|].
  cbn [replicate EligibilityCircuit.levelHashes]. unfold IsZero, Selector.
  rewrite Zmod_0_l, decide_True by done.
  replace (current + (Poseidon2 ((current + (0 - current) * 0) mod p)
                        ((0 + (current - 0) * 0) mod p) - current) * (1 - 1))
    with current by lia.
  rewrite IH. destruct n; [done|]. apply Zmod_mod.
Qed.

(** The all-zero path that [generateRealProof] of src/benchmark/zkp-helper.js
    feeds to the circuit leaves the hash unchanged at every level, so the
    membership constraint then holds exactly when [merkleRoot] and the
    voter's own leaf are the same field element, and the nullifier is
    produced only in that case. *)
Theorem all_zero_path_accepts_only_the_leaf_itself
    (voterNationalId voterSecret merkleRoot electionId : Z) :
  VoterEligibility p Poseidon2 Poseidon3 voterNationalId voterSecret
    (replicate 20 0) (replicate 20 0) merkleRoot electionId =
  if decide (merkleRoot mod p = voterNationalId mod p)
  then Some (Poseidon3 (voterNationalId mod p) (voterSecret mod p)
               (electionId mod p))
  else None.
Proof.
  unfold VoterEligibility, MerkleTreeChecker.
  rewrite decide_True by (by rewrite !length_replicate).
  rewrite levelHashes_all_zero, !Zmod_mod.
  case_bool_decide; by case_decide.
Qed.

Lemma nextLevel_in_field level :
  Forall in_field (ZkpServer.nextLevel Poseidon2 level).
Proof.
  induction level as [|x|x y l IH] using list_pair_ind; cbn; auto.
Qed.

Lemma levelsFrom_in_field fuel : ∀ level tree,
  ZkpServer.levelsFrom Poseidon2 fuel level = Some tree →
  Forall in_field level →
  Forall (Forall in_field) tree.
Proof.
  induction fuel as [|fuel IH]; intros level tree Ht Hlevel;
    rewrite ZkpServerFacts.levelsFrom_unfold in Ht; case_decide;
    try (injection Ht as <-; by constructor); [done|].
  destruct (ZkpServer.levelsFrom Poseidon2 fuel _) as [upper|] eqn:Hup; [|done].
  injection Ht as <-. constructor; [done|].
  eapply IH; [done|]. apply nextLevel_in_field.
Qed.

Lemma proofLoop_elements (P : Z → Prop) : ∀ tree i es bs,
  Forall (Forall P) tree →
  ZkpServer.proofLoop tree i = Some (es, bs) →
  Forall P es.
Proof.
  induction tree as [|layer [|next upper] IH]; intros i es bs Htree.
  - by intros [= <- <-].
  - by intros [= <- <-].
  - rewrite ZkpServerFacts.proofLoop_step.
    apply Forall_cons in Htree as [Hlayer Hupper].
    destruct (match layer !! _ with Some s => Some s | None => layer !! i end)
      as [s|] eqn:Hs; [|done].
    destruct (ZkpServer.proofLoop (next :: upper) (i / 2)%nat)
      as [[es' bs']|] eqn:Hl; [|done].
    intros [= <- <-]. constructor; [|by eapply IH].
    destruct (layer !! _) as [s'|] eqn:Hs'.
    + injection Hs as <-. by eapply Forall_lookup_1 in Hlayer.
    + by eapply Forall_lookup_1 in Hlayer.
Qed.

(** The inputs that [/zkp/generate-proof] hands to the prover satisfy the
    circuit: for at most [2^20] leaves that are field elements, a leaf that
    is in the list, and a tree without zero node, the circuit run on the path
    of [getProof] and on [getRoot] passes its membership constraint and
    outputs the nullifier. *)
Theorem server_inputs_satisfy_the_circuit
    (leaves : list Z) (i : nat) (x voterSecret electionId : Z) :
  leaves !! i = Some x →
  Forall in_field leaves →
  (length leaves ≤ 2 ^ ZkpServer.TREE_DEPTH)%nat →
  ∃ tree path root,
    ZkpServer.newMerkleTree Poseidon2 leaves = Some tree ∧
    ZkpServer.getProof tree i = Some path ∧
    ZkpServer.getRoot tree = Some root ∧
    (Forall (Forall (λ v, v ≠ 0)) tree →
     VoterEligibility p Poseidon2 Poseidon3 x voterSecret
       (ZkpServer.pathElements path) (ZkpServer.pathIndices path)
       root electionId
     = Some (Poseidon3 x (voterSecret mod p) (electionId mod p))).
Proof.
  intros Hi Hleaves Hcap.
  destruct (ZkpServerFacts.buildTree_total Poseidon2 leaves) as [tree Ht].
  destruct (ZkpServerFacts.proofLoop_fold _ _ _ _ _ _ Ht Hi)
    as (es & bs & root & Hloop & Hlen & Hroot & Hfold).
  destruct (ZkpServerFacts.proofLoop_length _ _ _ _ Hloop) as [Hes Hbs].
  pose proof (ZkpServerFacts.levelsFrom_height _ _ _ _ ZkpServer.TREE_DEPTH Ht Hcap)
    as Hheight.
  pose proof (levelsFrom_in_field _ _ _ Ht Hleaves) as Hfield.
  pose proof (proofLoop_elements _ _ _ _ _ Hfield Hloop) as Hes_field.
  destruct (ZkpServerShape.proofLoop_bits _ _ _ _ _ _ _ Ht
              (lookup_lt_Some _ _ _ Hi) Hloop) as [Hbits _].
  exists tree, (ZkpServer.padProof es bs), root.
  split_and!; [|by unfold ZkpServer.getProof; rewrite Hloop|done|].
  { by destruct leaves. }
  assert (0 ≤ x < p) as Hx by (by eapply Forall_lookup_1 in Hleaves).
  intros Hnz. unfold VoterEligibility, MerkleTreeChecker, ZkpServer.padProof.
  cbn [ZkpServer.pathElements ZkpServer.pathIndices].
  rewrite decide_True; last first.
  { rewrite !length_app, !length_replicate.
    unfold ZkpServer.TREE_DEPTH in *. lia. }
  rewrite !Zmod_mod, (Z.mod_small x) by done.
  destruct (circuit_fold_is_the_javascript_fold x
              (es ++ replicate (ZkpServer.TREE_DEPTH - length es) 0)
              (bs ++ replicate (ZkpServer.TREE_DEPTH - length es) 0)) as [-> _].
  - done.
  - apply Forall_app. split; [done|]. apply Forall_replicate. lia.
  - apply Forall_app. split; [done|]. apply Forall_replicate. by left.
  - rewrite !length_app, !length_replicate. lia.
  - rewrite ZkpServerFacts.foldPath_padding by done.
    rewrite <- Hfold by done. by rewrite bool_decide_eq_true_2.
Qed.

End WithField.

Lemma sample_Poseidon2_range a b :
  0 ≤ FieldSamples.Poseidon2 a b < FieldSamples.p.
Proof. by apply Z.mod_pos_bound. Qed.

Lemma circuit_fold_is_the_javascript_fold_witness :
  EligibilityCircuit.levelHashes FieldSamples.p FieldSamples.Poseidon2
    3 [0; 9; 0] [0; 1; 0] = 28 ∧
  ZkpServer.foldPath FieldSamples.Poseidon2 3 [0; 9; 0] [0; 1; 0] = 28 ∧
  MerkleHelperVerify.foldPath FieldSamples.Poseidon2 3 [0; 9; 0] [0; 1; 0] = 28.
Proof.
  destruct (circuit_fold_is_the_javascript_fold FieldSamples.p
              FieldSamples.Poseidon2 sample_Poseidon2_range 3 [0; 9; 0] [0; 1; 0])
    as [Hserver Hhelper].
  - by unfold FieldSamples.p.
  - repeat constructor; by unfold FieldSamples.p.
  - apply Forall_cons_2; [by left|]. apply Forall_cons_2; [by right|].
    apply Forall_cons_2; [by left|]. apply Forall_nil_2.
  - reflexivity.
  - split_and!; [reflexivity| |].
    + rewrite <- Hserver. reflexivity.
    + rewrite <- Hhelper. reflexivity.
Defined.

(** A root that is the leaf plus the modulus is the same field element as
    the leaf, and is accepted; another root is not. *)
Example all_zero_path_accepts_leaf_plus_modulus :
  VoterEligibility FieldSamples.p FieldSamples.Poseidon2 FieldSamples.Poseidon3
    7 4 (replicate 20 0) (replicate 20 0) (7 + FieldSamples.p) 1
    = Some (FieldSamples.Poseidon3 7 4 1) ∧
  VoterEligibility FieldSamples.p FieldSamples.Poseidon2 FieldSamples.Poseidon3
    7 4 (replicate 20 0) (replicate 20 0) 67 1 = None.
Proof. split; reflexivity. Qed.

Lemma server_inputs_satisfy_the_circuit_witness :
  ∃ tree path root,
    ZkpServer.newMerkleTree FieldSamples.Poseidon2 [1; 2; 3] = Some tree ∧
    ZkpServer.getProof tree 2 = Some path ∧
    ZkpServer.getRoot tree = Some root ∧
    (Forall (Forall (λ v, v ≠ 0)) tree →
     VoterEligibility FieldSamples.p FieldSamples.Poseidon2 FieldSamples.Poseidon3
       3 4 (ZkpServer.pathElements path) (ZkpServer.pathIndices path) root 1
     = Some (FieldSamples.Poseidon3 3 (4 mod FieldSamples.p)
               (1 mod FieldSamples.p))).
Proof.
  apply (server_inputs_satisfy_the_circuit FieldSamples.p FieldSamples.Poseidon2
           FieldSamples.Poseidon3 sample_Poseidon2_range [1; 2; 3] 2 3 4 1).
  - reflexivity.
  - repeat constructor; by unfold FieldSamples.p.
  - exact ZkpServerShape.three_leaves_within_capacity.
Defined.

(** The nullifier the circuit outputs is the [Poseidon(3)] hash of the
    voter's leaf, the secret and the election identifier. *)
Lemma VoterEligibility_nullifier p Poseidon2 Poseidon3
    voterNationalId voterSecret es bs merkleRoot electionId nullifier :
  VoterEligibility p Poseidon2 Poseidon3 voterNationalId voterSecret es bs
    merkleRoot electionId = Some nullifier →
  nullifier = Poseidon3 (voterNationalId mod p) (voterSecret mod p)
                (electionId mod p).
Proof.
  unfold VoterEligibility. case_decide; [|done].
  destruct (MerkleTreeChecker _ _ _ _ _ _); [|done]. by intros [= <-].
Qed.

(** With the sample hash the circuit gives voter 7 different nullifiers in
    elections 1 and 2. *)
Example circuit_nullifier_differs_across_elections :
  VoterEligibility FieldSamples.p FieldSamples.Poseidon2 FieldSamples.Poseidon3
    7 4 (replicate 20 0) (replicate 20 0) 7 1 = Some 32 ∧
  VoterEligibility FieldSamples.p FieldSamples.Poseidon2 FieldSamples.Poseidon3
    7 4 (replicate 20 0) (replicate 20 0) 7 2 = Some 37.
Proof. split; reflexivity. Qed.

(** The sample tree has no zero node, so the circuit does accept there. *)
Example sample_tree_has_no_zero_node :
  ZkpServer.newMerkleTree FieldSamples.Poseidon2 [1; 2; 3]
    = Some [[1; 2; 3]; [9; 16]; [67]].
Proof. reflexivity. Qed.

End EligibilityCircuitFacts.
